(** * deck.gl-geoarrow: offset resolution, accessor broadcast, offset
      inversion and picking, verified over a shallow embedding.

    The definitions below follow [src/utils.ts] (the second half of
    [src/src/arc-layer.ts]), and the two layer classes
    [arc-layer.ts] and [solid-polygon-layer.ts].

    JavaScript numbers that are used as indices, lengths and offsets are
    modelled as [Z]; a typed array is a constructor tag together with the
    list of its elements; reads out of range give [None] (the JavaScript
    [undefined]); writes into a typed array out of range are dropped, as
    the language prescribes for integer-indexed objects. *)

From Stdlib Require Import ZArith List Lia Bool.
From stdpp Require Import base option list gmap strings.

Local Open Scope Z_scope.

(** ** JavaScript preliminaries *)

Module JS.

(** Exceptions that the modelled code can raise. *)
Inductive Error := RangeError | TypeError | AssertionError.

(** The outcome of a call: a value, or a thrown exception. *)
Inductive Completion (T : Type) : Type :=
| Normal (v : T)
| Throw (e : Error).
Arguments Normal {T} v.
Arguments Throw {T} e.

#[global] Instance Completion_ret : MRet Completion := fun _ v => Normal v.
#[global] Instance Completion_bind : MBind Completion := fun _ _ k m =>
  match m with
  | Normal v => k v
  | Throw e => Throw e
  end.

(** [arr.length] *)
Definition len {A} (arr : list A) : Z := Z.of_nat (length arr).

(** [arr[i]] for a numeric index [i]; [None] is [undefined]. *)
Definition get {A} (arr : list A) (i : Z) : option A :=
  if decide (0 <= i) then arr !! Z.to_nat i else None.

(** [arr[i] = v] on a typed array: an index outside [0, length) leaves
    the array as it is. *)
Definition set {A} (arr : list A) (i : Z) (v : A) : list A :=
  if decide (0 <= i) then <[Z.to_nat i := v]> arr else arr.

(** [n] iterations of a loop whose counter starts at [lo] and is
    incremented by one after each run of the body. *)
Fixpoint for_range {S} (n : nat) (lo : Z) (body : Z -> S -> S) (s : S) : S :=
  match n with
  | O => s
  | Datatypes.S n' => for_range n' (lo + 1) body (body lo s)
  end.

(** [for (let x = lo; x < hi; x++) body], the body not assigning to [x]. *)
Definition for_loop {S} (lo hi : Z) (body : Z -> S -> S) (s : S) : S :=
  for_range (Z.to_nat (hi - lo)) lo body s.

End JS.

Abbreviation Normal := JS.Normal.
Abbreviation Throw := JS.Throw.

(** ** Typed arrays *)

(** The [TypedArray] union of [utils.ts]. *)
Inductive TypedArrayKind :=
| Uint8Array
| Uint8ClampedArray
| Uint16Array
| Uint32Array
| Int8Array
| Int16Array
| Int32Array
| Float32Array
| Float64Array.

Record TypedArray (A : Type) : Type := mkTypedArray {
  ctor : TypedArrayKind;
  elems : list A;
}.
Arguments mkTypedArray {A} ctor elems.
Arguments ctor {A} t.
Arguments elems {A} t.

(** [new C(n)]: [n] is [None] for [undefined] or [NaN], which give an empty
    array; a negative length raises [RangeError]; otherwise the array is
    filled with zeros. *)
Definition new_TypedArray {A} (zero : A) (C : TypedArrayKind) (n : option Z)
  : JS.Completion (TypedArray A) :=
  match n with
  | None => Normal (mkTypedArray C [])
  | Some n =>
      if decide (n < 0) then Throw JS.RangeError
      else Normal (mkTypedArray C (replicate (Z.to_nat n) zero))
  end.

(** Conversions applied when a number is stored into an integer typed
    array. *)
Definition wrap_unsigned (w : Z) (v : Z) : Z := v mod 2 ^ w.
Definition wrap_signed (w : Z) (v : Z) : Z :=
  (v + 2 ^ (w - 1)) mod 2 ^ w - 2 ^ (w - 1).
Definition clamp_uint8 (v : Z) : Z := Z.max 0 (Z.min 255 v).

(** Bit width of the unsigned constructors chosen by [invertOffsets]. *)
Definition uint_bits (C : TypedArrayKind) : Z :=
  match C with
  | Uint8Array => 8
  | Uint16Array => 16
  | _ => 32
  end.

(** An [Int32Array] used as an offsets array is the list of its elements. *)
Definition is_int32 (v : Z) : Prop := - 2 ^ 31 <= v < 2 ^ 31.
Definition Int32Array_ok (l : list Z) : Prop := Forall is_int32 l.

(** ** Offsets arrays *)

Fixpoint non_decreasing (l : list Z) : Prop :=
  match l with
  | a :: t =>
      match t with
      | b :: _ => a <= b /\ non_decreasing t
      | [] => True
      end
  | [] => True
  end.

(** Well-formed offsets array: first element 0, non-decreasing. *)
Definition well_formed (O : list Z) : Prop :=
  JS.get O 0 = Some 0 /\ non_decreasing O.

(** A chain of offsets arrays: every entry of the outer array is a position
    of the inner one, the start of an item in the domain that the inner
    array delimits. *)
Definition indexes_into (outer inner : list Z) : Prop :=
  Forall (fun v => 0 <= v < JS.len inner) outer.

(** ** [invertOffsets] *)

Definition invertOffsets_arrayConstructor (offsets : list Z) : TypedArrayKind :=
  if decide (JS.len offsets < 2 ^ 8) then Uint8Array
  else if decide (JS.len offsets < 2 ^ 16) then Uint16Array
  else Uint32Array.

(** Body of the outer loop of [invertOffsets]. *)
Definition invertOffsets_step (C : TypedArrayKind) (offsets : list Z)
  (arrayIdx : Z) (invertedOffsets : list Z) : list Z :=
  match JS.get offsets arrayIdx, JS.get offsets (arrayIdx + 1) with
  | Some thisOffset, Some nextOffset =>
      JS.for_loop thisOffset nextOffset
        (fun offset inv => JS.set inv offset (wrap_unsigned (uint_bits C) arrayIdx))
        invertedOffsets
  | _, _ => invertedOffsets
  end.

Definition invertOffsets (offsets : list Z) : JS.Completion (TypedArray Z) :=
  let largestOffset := JS.get offsets (JS.len offsets - 1) in
  let arrayConstructor := invertOffsets_arrayConstructor offsets in
  invertedOffsets ← new_TypedArray 0 arrayConstructor largestOffset;
  mret (mkTypedArray arrayConstructor
          (JS.for_loop 0 (JS.len offsets - 1)
             (invertOffsets_step arrayConstructor offsets)
             (elems invertedOffsets))).

(** The spec's words on the element type of the result: a width can
    represent a number when the number is in its unsigned range, and the
    type is the smallest of the widths 8, 16 and 32 that can. *)
Definition representable (w v : Z) : Prop := 0 <= v < 2 ^ w.

Definition smallest_uint_width (v : Z) : Z :=
  if decide (v < 2 ^ 8) then 8
  else if decide (v < 2 ^ 16) then 16
  else 32.

(** ** [expandArrayToCoords] *)

Section Broadcast.
Context {A : Type}.
(** [zero] is the content of a freshly allocated typed array;
    [store_undefined C] is what a store of [undefined] leaves in an array
    built by [C] (0 for the integer constructors, NaN for the floating
    ones). *)
Context (zero : A) (store_undefined : TypedArrayKind -> A).

(** The value that [out[j] = input[k]] stores. An element read from
    [input] is already of the element type of [out], which is built by
    the same constructor, and is stored as it is. *)
Definition read_for_store (input : TypedArray A) (k : Z) : A :=
  match JS.get (elems input) k with
  | Some v => v
  | None => store_undefined (ctor input)
  end.

(** Body of the loop over [coordIdx]: the loop over [i]. *)
Definition expand_coord (input : TypedArray A) (size : Z) (geomIdx coordIdx : Z)
  (outputArray : list A) : list A :=
  JS.for_loop 0 size
    (fun i out => JS.set out (coordIdx * size + i) (read_for_store input (geomIdx * size + i)))
    outputArray.

(** Body of the loop over [geomIdx]. *)
Definition expand_geom (input : TypedArray A) (size : Z) (geomOffsets : list Z)
  (geomIdx : Z) (outputArray : list A) : list A :=
  match JS.get geomOffsets geomIdx, JS.get geomOffsets (geomIdx + 1) with
  | Some lastCoordIdx, Some nextCoordIdx =>
      JS.for_loop lastCoordIdx nextCoordIdx (expand_coord input size geomIdx) outputArray
  | _, _ => outputArray
  end.

Definition expandArrayToCoords (input : TypedArray A) (size : Z) (geomOffsets : list Z)
  : JS.Completion (TypedArray A) :=
  let numCoords := JS.get geomOffsets (JS.len geomOffsets - 1) in
  outputArray ← new_TypedArray zero (ctor input) ((fun n => n * size) <$> numCoords);
  mret (mkTypedArray (ctor outputArray)
          (JS.for_loop 0 (JS.len geomOffsets - 1)
             (expand_geom input size geomOffsets)
             (elems outputArray))).
End Broadcast.

(** ** Arrow data *)

Module arrow.

(** Arrow's logical types, as far as the layers tell them apart. *)
Inductive DataType :=
| Null
| Int (isSigned : bool) (bitWidth : Z)
| Float
| Utf8
| Bool
| List (child : DataType)
| Struct
| FixedSizeList (listSize : Z) (child : DataType)
| Dictionary.

(** One chunk of a column: [arrow.Data]. *)
#[warnings="-register-all"]
Inductive Data (A : Type) : Type := mkData {
  type : DataType;
  length : Z;
  valueOffsets : list Z;
  values : TypedArray A;
  children : list (Data A);
}.
Arguments mkData {A}.
Arguments type {A}.
Arguments length {A}.
Arguments valueOffsets {A}.
Arguments values {A}.
Arguments children {A}.

(** [arrow.DataType.isFixedSizeList(x)] is
    [x?.typeId === Type.FixedSizeList]; it is [false] on [undefined]. *)
Definition isFixedSizeList {A} (x : option (Data A)) : bool :=
  match x with
  | Some d => match type d with FixedSizeList _ _ => true | _ => false end
  | None => false
  end.

(** [arrow.DataType.isFloat(x)] is [x?.typeId === Type.Float]. *)
Definition isFloat {A} (x : option (Data A)) : bool :=
  match x with
  | Some d => match type d with Float => true | _ => false end
  | None => false
  end.

End arrow.

(** ** Offset resolvers *)

Section Resolvers.
Context {A : Type}.

(** [data.children[0]]; the accessors below all read this field, and the
    callers then read a field of the result, which raises [TypeError] when
    there is no child. *)
Definition child0 (data : arrow.Data A) : JS.Completion (arrow.Data A) :=
  match JS.get (arrow.children data) 0 with
  | Some c => Normal c
  | None => Throw JS.TypeError
  end.

Definition getPointChild := child0.
Definition getLineStringChild := child0.
Definition getPolygonChild := child0.
Definition getMultiPointChild := child0.
Definition getMultiLineStringChild := child0.
Definition getMultiPolygonChild := child0.

(** The value that [resolved[i] = v] stores into an [Int32Array]:
    [undefined] becomes 0, a number is wrapped to 32 bits. *)
Definition store_int32 (v : option Z) : Z :=
  match v with
  | Some v => wrap_signed 32 v
  | None => 0
  end.

(** [inner[outer[i]]]; indexing by [undefined] gives [undefined]. *)
Definition lookup_through (outer inner : list Z) (i : Z) : option Z :=
  a ← JS.get outer i; JS.get inner a.

Definition getMultiLineStringResolvedOffsets (data : arrow.Data A)
  : JS.Completion (list Z) :=
  let geomOffsets := arrow.valueOffsets data in
  lineStringData ← getMultiLineStringChild data;
  let ringOffsets := arrow.valueOffsets lineStringData in
  resolvedRingOffsets ← new_TypedArray 0 Int32Array (Some (JS.len geomOffsets));
  mret (JS.for_loop 0 (JS.len (elems resolvedRingOffsets))
          (fun i resolved =>
             JS.set resolved i (store_int32 (lookup_through geomOffsets ringOffsets i)))
          (elems resolvedRingOffsets)).

Definition getPolygonResolvedOffsets (data : arrow.Data A)
  : JS.Completion (list Z) :=
  let geomOffsets := arrow.valueOffsets data in
  ringData ← getPolygonChild data;
  let ringOffsets := arrow.valueOffsets ringData in
  resolvedRingOffsets ← new_TypedArray 0 Int32Array (Some (JS.len geomOffsets));
  mret (JS.for_loop 0 (JS.len (elems resolvedRingOffsets))
          (fun i resolved =>
             JS.set resolved i (store_int32 (lookup_through geomOffsets ringOffsets i)))
          (elems resolvedRingOffsets)).

Definition getMultiPolygonResolvedOffsets (data : arrow.Data A)
  : JS.Completion (list Z) :=
  polygonData ← getMultiPolygonChild data;
  ringData ← getPolygonChild polygonData;
  let geomOffsets := arrow.valueOffsets data in
  let polygonOffsets := arrow.valueOffsets polygonData in
  let ringOffsets := arrow.valueOffsets ringData in
  resolvedRingOffsets ← new_TypedArray 0 Int32Array (Some (JS.len geomOffsets));
  mret (JS.for_loop 0 (JS.len (elems resolvedRingOffsets))
          (fun i resolved =>
             JS.set resolved i
               (store_int32 (a ← lookup_through geomOffsets polygonOffsets i;
                             JS.get ringOffsets a)))
          (elems resolvedRingOffsets)).

End Resolvers.

(** ** [encodePickingColors] *)

(** The value that [pickingColors[j] = pickingColor[k]] stores into a
    [Uint8ClampedArray]. *)
Definition store_clamped (v : option Z) : Z :=
  match v with
  | Some v => clamp_uint8 v
  | None => 0
  end.

(** Body of the loop over [offset]: the three stores. *)
Definition write_color (pickingColor : list Z) (offset : Z) (pickingColors : list Z)
  : list Z :=
  let pickingColors :=
    JS.set pickingColors (offset * 3) (store_clamped (JS.get pickingColor 0)) in
  let pickingColors :=
    JS.set pickingColors (offset * 3 + 1) (store_clamped (JS.get pickingColor 1)) in
  JS.set pickingColors (offset * 3 + 2) (store_clamped (JS.get pickingColor 2)).

(** Body of the loop over [arrayIdx]. The state is the scratch array
    [pickingColor], which the callback mutates and which is shared by all
    iterations, together with the output buffer. A callback
    [(id, result) => void] is modelled by the content it leaves in
    [result]. *)
Definition encodePickingColors_step (geomToCoordOffsets : list Z)
  (encodePickingColor : Z -> list Z -> list Z)
  (arrayIdx : Z) (st : list Z * list Z) : list Z * list Z :=
  let '(pickingColor, pickingColors) := st in
  let thisOffset := JS.get geomToCoordOffsets arrayIdx in
  let nextOffset := JS.get geomToCoordOffsets (arrayIdx + 1) in
  let pickingColor := encodePickingColor arrayIdx pickingColor in
  match thisOffset, nextOffset with
  | Some thisOffset, Some nextOffset =>
      (pickingColor,
       JS.for_loop thisOffset nextOffset (write_color pickingColor) pickingColors)
  | _, _ => (pickingColor, pickingColors)
  end.

Definition encodePickingColors (geomToCoordOffsets : list Z)
  (encodePickingColor : Z -> list Z -> list Z) : JS.Completion (TypedArray Z) :=
  let largestOffset := JS.get geomToCoordOffsets (JS.len geomToCoordOffsets - 1) in
  pickingColors ← new_TypedArray 0 Uint8ClampedArray largestOffset;
  let pickingColor := [] in
  mret (mkTypedArray Uint8ClampedArray
          (snd (JS.for_loop 0 (JS.len geomToCoordOffsets - 1)
                  (encodePickingColors_step geomToCoordOffsets encodePickingColor)
                  (pickingColor, elems pickingColors)))).

(** deck.gl's [Layer.encodePickingColor], the callback that
    [_renderLayersMultiPolygon] passes: index [i] is encoded as [i + 1] in
    three little-endian bytes. *)
Definition deck_encodePickingColor (i : Z) (target : list Z) : list Z :=
  [Z.land (i + 1) 255;
   Z.land (Z.shiftr (i + 1) 8) 255;
   Z.land (Z.shiftr (Z.shiftr (i + 1) 8) 8) 255] ++ drop 3 target.

(** ** [assignAccessor] *)

Section Dispatcher.
Context {A V : Type}.
Context (zero : A) (store_undefined : TypedArrayKind -> A).

(** What a caller passes as [propInput]: nothing, an [arrow.Vector] (the
    list of its chunks), or any other value. *)
Inductive PropInput :=
| Undefined
| Vector (data : list (arrow.Data A))
| Value (v : V).

(** An entry of [props.data.attributes]; [normalized] is [None] when the
    object literal has no such key. *)
Record Attribute := mkAttribute {
  value : TypedArray A;
  size : Z;
  normalized : option bool;
}.

(** The [props] object of a sub-layer: the properties set on the object
    itself by name, and the attribute table [props.data.attributes], which
    every caller creates before it calls [assignAccessor]. *)
Record LayerProps := mkLayerProps {
  own : gmap string V;
  attributes : gmap string Attribute;
}.

(** [assert(cond)] *)
Definition assert (cond : bool) : JS.Completion unit :=
  if cond then Normal tt else Throw JS.AssertionError.

(** [if (geomCoordOffsets) values = expandArrayToCoords(values, size, geomCoordOffsets)];
    an array object is truthy, [null] and [undefined] are not. *)
Definition expand_if_offsets (values : TypedArray A) (size : Z)
  (geomCoordOffsets : option (list Z)) : JS.Completion (TypedArray A) :=
  match geomCoordOffsets with
  | Some offsets => expandArrayToCoords zero store_undefined values size offsets
  | None => Normal values
  end.

(** [arrow.DataType.isFixedSizeList(columnData)] and
    [arrow.DataType.isFloat(columnData)] compare the type tag of the chunk,
    and are both false when [data[chunkIdx]] is [undefined]; in these two
    cases the function falls through to its end. *)
Definition assignAccessor (props : LayerProps) (propName : string)
  (propInput : PropInput) (chunkIdx : Z) (geomCoordOffsets : option (list Z))
  : JS.Completion LayerProps :=
  match propInput with
  | Undefined => Normal props
  | Vector data =>
      match JS.get data chunkIdx with
      | Some columnData =>
          match arrow.type columnData with
          | arrow.FixedSizeList listSize _ =>
              _ ← assert (bool_decide (JS.len (arrow.children columnData) = 1));
              child ← child0 columnData;
              values ← expand_if_offsets (arrow.values child) listSize geomCoordOffsets;
              mret (mkLayerProps (own props)
                      (<[propName := mkAttribute values listSize (Some true)]>
                         (attributes props)))
          | arrow.Float =>
              values ← expand_if_offsets (arrow.values columnData) 1 geomCoordOffsets;
              mret (mkLayerProps (own props)
                      (<[propName := mkAttribute values 1 None]> (attributes props)))
          | _ => Normal props
          end
      | None => Normal props
      end
  | Value v =>
      Normal (mkLayerProps (<[propName := v]> (own props)) (attributes props))
  end.

End Dispatcher.

(** ** [getPickingInfo] *)

Section Picking.
Context {Row Info : Type}.

(** A record batch: [batch.get(i)] is the row at [i]. *)
Record RecordBatch := mkRecordBatch {
  rows : list Row;
}.

(** An [arrow.Table]: its batches and the private field [_offsets], which
    the layers read. *)
Record Table := mkTable {
  batches : list RecordBatch;
  _offsets : list Z;
}.

(** Picking info: [index] is a JavaScript number ([None] for [undefined]
    and [NaN]), [object] the picked row, [rest] every other key, which the
    spread [...info] copies. *)
Record PickingInfo := mkPickingInfo {
  index : option Z;
  object : option Row;
  rest : Info;
}.

(** The two keys that the layers set on the props of a sub-layer. *)
Record SourceLayerProps := mkSourceLayerProps {
  recordBatchIdx : Z;
  invertedGeomOffsets : option (TypedArray Z);
}.

(** [a + b] on numbers; [undefined] or [NaN] on either side gives [NaN]. *)
Definition js_add (a b : option Z) : option Z :=
  x ← a; y ← b; Some (x + y).

(** [GeoArrowSolidPolygonLayer.getPickingInfo] *)
Definition SolidPolygon_getPickingInfo (table : Table) (info : PickingInfo)
  (sourceLayer : SourceLayerProps) : JS.Completion PickingInfo :=
  let index := index info in
  let index :=
    match invertedGeomOffsets sourceLayer with
    | Some inverted => i ← index; JS.get (elems inverted) i
    | None => index
    end in
  let recordBatchIdx := recordBatchIdx sourceLayer in
  match JS.get (batches table) recordBatchIdx with
  | None => Throw JS.TypeError
  | Some batch =>
      let row := i ← index; JS.get (rows batch) i in
      let offsets := _offsets table in
      let currentBatchOffset := JS.get offsets recordBatchIdx in
      let index := js_add index currentBatchOffset in
      Normal (mkPickingInfo index row (rest info))
  end.

(** [GeoArrowArcLayer.getPickingInfo] *)
Definition Arc_getPickingInfo (table : Table) (info : PickingInfo)
  (sourceLayer : SourceLayerProps) : JS.Completion PickingInfo :=
  let index := index info in
  let recordBatchIdx := recordBatchIdx sourceLayer in
  match JS.get (batches table) recordBatchIdx with
  | None => Throw JS.TypeError
  | Some batch =>
      let row := i ← index; JS.get (rows batch) i in
      let offsets := _offsets table in
      let currentBatchOffset := JS.get offsets recordBatchIdx in
      let index := js_add index currentBatchOffset in
      Normal (mkPickingInfo index row (rest info))
  end.

(** Number of rows of the batches before batch [k]. *)
Definition rows_before (table : Table) (k : Z) : Z :=
  foldr Z.add 0 ((fun b => JS.len (rows b)) <$> take (Z.to_nat k) (batches table)).

(** Modelled from the spec: the field [_offsets] is filled by Arrow, not
    by this repository. The chunk's cumulative offset is the cumulative
    element count of the chunks before it (sections 3, 5 and 6); Arrow
    computes it by [computeChunkOffsets]: [offsets[0] = 0] and
    [offsets[k + 1] = offsets[k] + chunks[k].length]. Arrow keeps the sums
    in 32 bits; the model is for tables of fewer than 2^32 rows. *)
Fixpoint chunk_offsets_from (acc : Z) (chunks : list RecordBatch) : list Z :=
  acc ::
  match chunks with
  | [] => []
  | c :: cs => chunk_offsets_from (acc + JS.len (rows c)) cs
  end.

Definition computeChunkOffsets (chunks : list RecordBatch) : list Z :=
  chunk_offsets_from 0 chunks.

(** Modelled from the spec: a table as Arrow builds it, its [_offsets]
    being the prefix sums of the batch lengths. *)
Definition Table_ok (table : Table) : Prop :=
  _offsets table = computeChunkOffsets (batches table).

End Picking.

(** ** Sample data

    A chunk of one multi-polygon made of two polygons; the first polygon
    has a ring of four points and an empty ring, the second a ring of three
    points. Coordinates are written as integers. *)

Module Sample.

Definition pointType := arrow.FixedSizeList 2 arrow.Float.

Definition coordData : arrow.Data Z :=
  arrow.mkData arrow.Float 14 []
    (mkTypedArray Float64Array [0; 0; 1; 0; 1; 1; 0; 0; 5; 5; 6; 5; 5; 5]) [].

Definition pointData : arrow.Data Z :=
  arrow.mkData pointType 7 [] (mkTypedArray Float64Array []) [coordData].

Definition ringData : arrow.Data Z :=
  arrow.mkData (arrow.List pointType) 3 [0; 4; 4; 7]
    (mkTypedArray Float64Array []) [pointData].

Definition polygonData : arrow.Data Z :=
  arrow.mkData (arrow.List (arrow.List pointType)) 2 [0; 2; 3]
    (mkTypedArray Float64Array []) [ringData].

Definition multiPolygonData : arrow.Data Z :=
  arrow.mkData (arrow.List (arrow.List (arrow.List pointType))) 1 [0; 2]
    (mkTypedArray Float64Array []) [polygonData].

(** Two columns of two rows: colours, as lists of four 8-bit channels, and
    32-bit integer identifiers. *)
Definition colorData : arrow.Data Z :=
  arrow.mkData (arrow.FixedSizeList 4 (arrow.Int false 8)) 2 []
    (mkTypedArray Uint8Array [])
    [arrow.mkData (arrow.Int false 8) 8 []
       (mkTypedArray Uint8Array [255; 0; 0; 255; 0; 255; 0; 255]) []].

Definition elevationData : arrow.Data Z :=
  arrow.mkData arrow.Float 2 [] (mkTypedArray Float32Array [10; 20]) [].

Definition idData : arrow.Data Z :=
  arrow.mkData (arrow.Int true 32) 2 [] (mkTypedArray Int32Array [7; 9]) [].

(** Sub-layer props before any accessor is assigned. *)
Definition props0 : @LayerProps Z Z := mkLayerProps ∅ ∅.

(** A table of three batches of 2, 3 and 1 rows. *)
Definition table : @Table Z :=
  mkTable [mkRecordBatch [100; 101]; mkRecordBatch [200; 201; 202]; mkRecordBatch [300]]
    [0; 2; 5; 6].

End Sample.

(** ** Geometry type classifiers

    The classifiers read the type of a vector and, through
    [vector.getChildAt(0)], the type of its first child; a vector is
    represented here by its type, the child vector by the type of the first
    child field. *)

Definition DataType_isFixedSizeList (t : arrow.DataType) : bool :=
  match t with arrow.FixedSizeList _ _ => true | _ => false end.

Definition DataType_isList (t : arrow.DataType) : bool :=
  match t with arrow.List _ => true | _ => false end.

Definition DataType_isFloat (t : arrow.DataType) : bool :=
  match t with arrow.Float => true | _ => false end.

Definition isPointVector (vector_type : arrow.DataType) : bool :=
  match vector_type with
  | arrow.FixedSizeList listSize child =>
      if bool_decide (listSize <> 2) && bool_decide (listSize <> 3) then false
      else if negb (DataType_isFloat child) then false
      else true
  | _ => false
  end.

Definition isLineStringVector (vector_type : arrow.DataType) : bool :=
  match vector_type with
  | arrow.List child => if negb (isPointVector child) then false else true
  | _ => false
  end.

Definition isPolygonVector (vector_type : arrow.DataType) : bool :=
  match vector_type with
  | arrow.List child => if negb (isLineStringVector child) then false else true
  | _ => false
  end.

Definition isMultiPointVector (vector_type : arrow.DataType) : bool :=
  match vector_type with
  | arrow.List child => if negb (isPointVector child) then false else true
  | _ => false
  end.

Definition isMultiLineStringVector (vector_type : arrow.DataType) : bool :=
  match vector_type with
  | arrow.List child => if negb (isLineStringVector child) then false else true
  | _ => false
  end.

Definition isMultiPolygonVector (vector_type : arrow.DataType) : bool :=
  match vector_type with
  | arrow.List child => if negb (isPolygonVector child) then false else true
  | _ => false
  end.

(** ** [findGeometryColumnIndex] and [getGeometryVector] *)

(** A field of a schema: its name and its metadata, a map from strings to
    strings. *)
Record Field := mkField {
  name : string;
  metadata : gmap string string;
}.

(** [Array.prototype.findIndex]: the index of the first element that
    satisfies the predicate, or -1. *)
Fixpoint findIndex_from {T} (p : T -> bool) (l : list T) (i : Z) : Z :=
  match l with
  | [] => -1
  | x :: l' => if p x then i else findIndex_from p l' (i + 1)
  end.

Definition findIndex {T} (p : T -> bool) (l : list T) : Z := findIndex_from p l 0.

(** The predicate given to [findIndex]. [geometryColumnName] is [None]
    for [undefined] and [null], which no field name equals. *)
Definition is_geometry_field (extensionName : string)
  (geometryColumnName : option string) (field : Field) : bool :=
  bool_decide (Some (name field) = geometryColumnName)
  || bool_decide (metadata field !! "ARROW:extension:name"%string = Some extensionName).

Definition findGeometryColumnIndex (schema_fields : list Field)
  (extensionName : string) (geometryColumnName : option string) : option Z :=
  let index := findIndex (is_geometry_field extensionName geometryColumnName)
                 schema_fields in
  if bool_decide (index <> -1) then Some index else None.

(** The part of a table that [getGeometryVector] reads: the fields of its
    schema and, for [table.getChildAt(i)], its columns. *)
Record TableColumns (Vec : Type) := mkTableColumns {
  schema_fields : list Field;
  columns : list Vec;
}.
Arguments mkTableColumns {Vec}.
Arguments schema_fields {Vec}.
Arguments columns {Vec}.

(** [None] is [null]. *)
Definition getGeometryVector {Vec} (table : TableColumns Vec)
  (geoarrowTypeName : string) : option Vec :=
  match findGeometryColumnIndex (schema_fields table) geoarrowTypeName None with
  | None => None
  | Some geometryColumnIdx => JS.get (columns table) geometryColumnIdx
  end.

(** ** [extractAccessorsFromProps] *)

(** One run of the loop body over an entry of [Object.entries(props)]. *)
Definition extractAccessors_step {V} (excludeKeys : list string)
  (acc : gmap string V * gmap string V) (entry : string * V)
  : gmap string V * gmap string V :=
  let '(accessors, otherProps) := acc in
  let '(key, value) := entry in
  if bool_decide (key ∈ excludeKeys) then (accessors, otherProps)
  else if String.prefix "get" key then (<[key := value]> accessors, otherProps)
  else (accessors, <[key := value]> otherProps).

(** [props] is given by its entries, in the order of [Object.entries]. *)
Definition extractAccessorsFromProps {V} (props : list (string * V))
  (excludeKeys : list string) : gmap string V * gmap string V :=
  foldl (extractAccessors_step excludeKeys) (∅, ∅) props.

(** * Properties *)

(** ** Array reads and writes *)

Section ArrayFacts.
Context {A : Type}.
Implicit Types (arr : list A) (i j : Z) (v : A).

Lemma get_Some_range arr i v : JS.get arr i = Some v -> 0 <= i < JS.len arr.
Proof.
  unfold JS.get, JS.len. case_decide; [|discriminate].
  intros Hl%lookup_lt_Some. lia.
Qed.

Lemma get_in_range arr i : 0 <= i < JS.len arr -> exists v, JS.get arr i = Some v.
Proof.
  unfold JS.get, JS.len. intros Hi. case_decide; [|lia].
  apply lookup_lt_is_Some. lia.
Qed.

Lemma get_out_of_range arr i : ~ (0 <= i < JS.len arr) -> JS.get arr i = None.
Proof.
  intros Hi. destruct (JS.get arr i) eqn:E; [|reflexivity].
  apply get_Some_range in E. contradiction.
Qed.

Lemma len_set arr i v : JS.len (JS.set arr i v) = JS.len arr.
Proof. unfold JS.set, JS.len. case_decide; [|reflexivity]. now rewrite length_insert. Qed.

Lemma get_set_eq arr i v : 0 <= i < JS.len arr -> JS.get (JS.set arr i v) i = Some v.
Proof.
  unfold JS.get, JS.set, JS.len. intros Hi. case_decide; [|lia].
  apply list_lookup_insert_eq. lia.
Qed.

Lemma get_set_ne arr i j v : i <> j -> JS.get (JS.set arr i v) j = JS.get arr j.
Proof.
  unfold JS.get, JS.set. intros Hij. repeat case_decide; try reflexivity.
  apply list_lookup_insert_ne. lia.
Qed.

Lemma set_out_of_range arr i v : ~ (0 <= i < JS.len arr) -> JS.set arr i v = arr.
Proof.
  unfold JS.set, JS.len. intros Hi. case_decide; [|reflexivity].
  apply list_insert_ge. lia.
Qed.

Lemma len_replicate (n : Z) v : 0 <= n -> JS.len (replicate (Z.to_nat n) v) = n.
Proof. intros Hn. unfold JS.len. rewrite length_replicate. lia. Qed.

End ArrayFacts.

(** ** Loops *)

Section LoopFacts.
Context {S : Type}.
Implicit Types (body : Z -> S -> S) (s : S).

Lemma for_range_last n lo body s :
  JS.for_range (Datatypes.S n) lo body s
  = body (lo + Z.of_nat n) (JS.for_range n lo body s).
Proof.
  revert lo s. induction n as [|n IH]; intros lo s.
  - simpl. now rewrite Z.add_0_r.
  - change (JS.for_range (Datatypes.S (Datatypes.S n)) lo body s)
      with (JS.for_range (Datatypes.S n) (lo + 1) body (body lo s)).
    rewrite IH. simpl. f_equal. lia.
Qed.

Lemma for_loop_empty lo hi body s : hi <= lo -> JS.for_loop lo hi body s = s.
Proof.
  intros H. unfold JS.for_loop. replace (Z.to_nat (hi - lo)) with O by lia.
  reflexivity.
Qed.

Lemma for_loop_last lo hi body s :
  lo <= hi -> JS.for_loop lo (hi + 1) body s = body hi (JS.for_loop lo hi body s).
Proof.
  intros H. unfold JS.for_loop.
  replace (Z.to_nat (hi + 1 - lo)) with (Datatypes.S (Z.to_nat (hi - lo))) by lia.
  rewrite for_range_last. f_equal. lia.
Qed.

(** Induction over the iterations of a loop: a property of the state that
    holds before the loop and is carried by every run of the body, at the
    counter values [lo .. hi - 1], holds after it. *)
Lemma for_loop_ind (P : Z -> S -> Prop) lo hi body s :
  lo <= hi ->
  P lo s ->
  (forall k t, lo <= k < hi -> P k t -> P (k + 1) (body k t)) ->
  P hi (JS.for_loop lo hi body s).
Proof.
  intros Hle H0 Hstep.
  assert (G : forall n, (n <= Z.to_nat (hi - lo))%nat ->
                        P (lo + Z.of_nat n) (JS.for_loop lo (lo + Z.of_nat n) body s)).
  { induction n as [|n IH]; intros Hn.
    - rewrite Z.add_0_r, for_loop_empty by lia. exact H0.
    - replace (lo + Z.of_nat (Datatypes.S n)) with (lo + Z.of_nat n + 1) by lia.
      rewrite for_loop_last by lia. apply Hstep; [lia|]. apply IH. lia. }
  specialize (G (Z.to_nat (hi - lo)) (le_n _)).
  now replace (lo + Z.of_nat (Z.to_nat (hi - lo))) with hi in G by lia.
Qed.

End LoopFacts.

(** ** Offsets arrays *)

Lemma non_decreasing_adjacent (l : list Z) (i : nat) a b :
  non_decreasing l -> l !! i = Some a -> l !! Datatypes.S i = Some b -> a <= b.
Proof.
  revert i. induction l as [|x l IH]; intros i Hl Ha Hb; [discriminate|].
  destruct l as [|y l]; [destruct i; discriminate|].
  destruct Hl as [Hxy Hl]. destruct i as [|i].
  - simpl in Ha, Hb. congruence.
  - apply (IH i Hl Ha Hb).
Qed.

Lemma non_decreasing_lookup (l : list Z) (i j : nat) a b :
  non_decreasing l -> (i <= j)%nat -> l !! i = Some a -> l !! j = Some b -> a <= b.
Proof.
  intros Hl Hij Ha. revert b. induction Hij as [|j Hij IH]; intros b Hb.
  - assert (a = b) by congruence. lia.
  - destruct (lookup_lt_is_Some_2 l j) as [c Hc].
    { apply lookup_lt_Some in Hb. lia. }
    specialize (IH c Hc). pose proof (non_decreasing_adjacent l j c b Hl Hc Hb). lia.
Qed.

Lemma non_decreasing_get (O : list Z) g g' a b :
  non_decreasing O -> g <= g' -> JS.get O g = Some a -> JS.get O g' = Some b -> a <= b.
Proof.
  unfold JS.get. intros HO Hg. repeat case_decide; try discriminate.
  apply non_decreasing_lookup; [assumption|lia].
Qed.

Lemma non_decreasing_intro (l : list Z) :
  (forall (i : nat) a b, l !! i = Some a -> l !! Datatypes.S i = Some b -> a <= b) ->
  non_decreasing l.
Proof.
  induction l as [|x l IH]; intros H; [exact I|].
  destruct l as [|y l]; [exact I|]. split.
  - apply (H O); reflexivity.
  - apply IH. intros i a b Ha Hb. apply (H (Datatypes.S i)); assumption.
Qed.

(** Every position below the last offset lies in the range of some item. *)
Lemma well_formed_covers (O : list Z) p last :
  well_formed O -> JS.get O (JS.len O - 1) = Some last -> 0 <= p < last ->
  exists g lo hi, JS.get O g = Some lo /\ JS.get O (g + 1) = Some hi /\ lo <= p < hi.
Proof.
  intros [H0 _] Hlast Hp.
  assert (G : forall n : nat, forall v, JS.get O (Z.of_nat n) = Some v -> p < v ->
            exists g lo hi, JS.get O g = Some lo /\ JS.get O (g + 1) = Some hi /\ lo <= p < hi).
  { induction n as [|n IH]; intros v Hv Hpv.
    - change (Z.of_nat 0) with 0 in Hv. rewrite H0 in Hv. inversion Hv. lia.
    - destruct (get_in_range O (Z.of_nat n)) as [u Hu].
      { apply get_Some_range in Hv. lia. }
      destruct (decide (p < u)) as [Hpu|Hpu]; [apply (IH u Hu Hpu)|].
      exists (Z.of_nat n), u, v. repeat split; try assumption; try lia.
      now replace (Z.of_nat n + 1) with (Z.of_nat (Datatypes.S n)) by lia. }
  pose proof (get_Some_range _ _ _ Hlast) as Hr.
  apply (G (Z.to_nat (JS.len O - 1)) last); [|lia].
  now replace (Z.of_nat (Z.to_nat (JS.len O - 1))) with (JS.len O - 1) by lia.
Qed.

Lemma well_formed_range (O : list Z) g lo hi c last :
  well_formed O -> JS.get O (JS.len O - 1) = Some last ->
  JS.get O g = Some lo -> JS.get O (g + 1) = Some hi -> lo <= c < hi ->
  0 <= c < last.
Proof.
  intros [H0 Hmono] Hlast Hlo Hhi Hc.
  pose proof (get_Some_range _ _ _ Hlo). pose proof (get_Some_range _ _ _ Hhi).
  pose proof (non_decreasing_get O 0 g 0 lo Hmono ltac:(lia) H0 Hlo).
  pose proof (non_decreasing_get O (g + 1) (JS.len O - 1) hi last Hmono ltac:(lia) Hhi Hlast).
  lia.
Qed.

(** ** The loop shared by the broadcaster, the inverter and the encoder

    All three run over the items [g] of an offsets array and, for each,
    over the coordinates [c] of its range, where they run [f g c] on a
    buffer. [Q g c s] says that coordinate [c] of buffer [s] carries the
    data of item [g]. *)

Section PerCoordinate.
Context {S : Type} (f : Z -> Z -> S -> S).
Context (Inv : S -> Prop) (valid : Z -> Prop) (Q : Z -> Z -> S -> Prop).
Hypothesis f_inv : forall g c s, Inv s -> Inv (f g c s).
Hypothesis f_establish : forall g c s, Inv s -> valid c -> Q g c (f g c s).
Hypothesis f_preserve :
  forall g c g' c' s, c <> c' -> Q g c s -> Q g c (f g' c' s).

Lemma range_fill g lo hi s :
  Inv s -> (forall c, lo <= c < hi -> valid c) ->
  Inv (JS.for_loop lo hi (f g) s) /\
  (forall c, lo <= c < hi -> Q g c (JS.for_loop lo hi (f g) s)) /\
  (forall g0 c0, ~ (lo <= c0 < hi) -> Q g0 c0 s -> Q g0 c0 (JS.for_loop lo hi (f g) s)).
Proof.
  intros Hs Hvalid. destruct (decide (lo <= hi)) as [Hle|Hgt].
  2:{ rewrite for_loop_empty by lia. repeat split; auto. intros; lia. }
  apply (for_loop_ind
           (fun k t => Inv t /\ (forall c, lo <= c < k -> Q g c t) /\
                       (forall g0 c0, ~ (lo <= c0 < hi) -> Q g0 c0 s -> Q g0 c0 t)));
    [assumption| |].
  - repeat split; auto. intros; lia.
  - intros k t Hk (Ht & Hdone & Hother). split; [|split].
    + now apply f_inv.
    + intros c Hc. destruct (decide (c = k)) as [->|Hne].
      * apply f_establish; auto.
      * apply f_preserve; [assumption|]. apply Hdone. lia.
    + intros g0 c0 Hc0 HQ. apply f_preserve; [lia|]. now apply Hother.
Qed.

Context (O : list Z) (step : Z -> S -> S).
Hypothesis step_eq : forall g s,
  step g s = match JS.get O g, JS.get O (g + 1) with
             | Some lo, Some hi => JS.for_loop lo hi (f g) s
             | _, _ => s
             end.
Hypothesis O_non_decreasing : non_decreasing O.
Hypothesis O_valid : forall g lo hi c,
  JS.get O g = Some lo -> JS.get O (g + 1) = Some hi -> lo <= c < hi -> valid c.

Lemma offsets_fill s :
  Inv s ->
  Inv (JS.for_loop 0 (JS.len O - 1) step s) /\
  (forall g lo hi c,
      JS.get O g = Some lo -> JS.get O (g + 1) = Some hi -> lo <= c < hi ->
      Q g c (JS.for_loop 0 (JS.len O - 1) step s)).
Proof.
  intros Hs. destruct (decide (0 <= JS.len O - 1)) as [Hle|Hgt].
  2:{ rewrite for_loop_empty by lia. split; [assumption|].
      intros g lo hi c Hlo%get_Some_range. lia. }
  enough (G : Inv (JS.for_loop 0 (JS.len O - 1) step s) /\
              (forall g lo hi c, 0 <= g < JS.len O - 1 ->
                 JS.get O g = Some lo -> JS.get O (g + 1) = Some hi -> lo <= c < hi ->
                 Q g c (JS.for_loop 0 (JS.len O - 1) step s))).
  { destruct G as [G1 G2]. split; [assumption|]. intros g lo hi c Hlo Hhi Hc.
    apply (G2 g lo hi c); try assumption.
    apply get_Some_range in Hlo, Hhi. lia. }
  apply (for_loop_ind
           (fun n t => Inv t /\
              (forall g lo hi c, 0 <= g < n ->
                 JS.get O g = Some lo -> JS.get O (g + 1) = Some hi -> lo <= c < hi ->
                 Q g c t))); [assumption| |].
  - split; [assumption|]. intros; lia.
  - intros k t Hk [Ht Hdone]. rewrite step_eq.
    destruct (get_in_range O k) as [lok Hlok]; [lia|].
    destruct (get_in_range O (k + 1)) as [hik Hhik]; [lia|].
    rewrite Hlok, Hhik.
    destruct (range_fill k lok hik t Ht) as (Hinv & Hnew & Hold).
    { intros c Hc. apply (O_valid k lok hik c); assumption. }
    split; [assumption|]. intros g lo hi c Hg Hlo Hhi Hc.
    destruct (decide (g = k)) as [->|Hne].
    + assert (lo = lok) by congruence. assert (hi = hik) by congruence. subst.
      now apply Hnew.
    + apply Hold; [|apply (Hdone g lo hi c); try assumption; lia].
      pose proof (non_decreasing_get O (g + 1) k hi lok O_non_decreasing
                    ltac:(lia) Hhi Hlok).
      lia.
Qed.

End PerCoordinate.

(** ** The offset inverter *)

Lemma well_formed_last (O : list Z) :
  well_formed O -> exists last, JS.get O (JS.len O - 1) = Some last /\ 0 <= last.
Proof.
  intros [H0 Hmono]. pose proof (get_Some_range _ _ _ H0) as Hr.
  destruct (get_in_range O (JS.len O - 1)) as [last Hlast]; [lia|].
  exists last. split; [assumption|].
  apply (non_decreasing_get O 0 (JS.len O - 1) 0 last Hmono); [lia|assumption..].
Qed.

Lemma wrap_unsigned_small w v : 0 <= v < 2 ^ w -> wrap_unsigned w v = v.
Proof. intros H. unfold wrap_unsigned. now apply Z.mod_small. Qed.

(** The chosen constructor stores every source index unchanged. *)
Lemma invertOffsets_index_fits (O : list Z) g :
  JS.len O <= 2 ^ 32 -> 0 <= g < JS.len O - 1 ->
  wrap_unsigned (uint_bits (invertOffsets_arrayConstructor O)) g = g.
Proof.
  intros Hlen Hg. apply wrap_unsigned_small. unfold invertOffsets_arrayConstructor.
  repeat case_decide; simpl; lia.
Qed.

Lemma invertOffsets_run (O : list Z) last :
  well_formed O -> JS.get O (JS.len O - 1) = Some last ->
  exists final,
    invertOffsets O = Normal (mkTypedArray (invertOffsets_arrayConstructor O) final) /\
    JS.len final = last /\
    forall g lo hi p,
      JS.get O g = Some lo -> JS.get O (g + 1) = Some hi -> lo <= p < hi ->
      JS.get final p
      = Some (wrap_unsigned (uint_bits (invertOffsets_arrayConstructor O)) g).
Proof.
  intros HO Hlast. destruct (well_formed_last O HO) as (last' & Hlast' & Hpos).
  assert (last' = last) by congruence. subst last'.
  unfold invertOffsets. rewrite Hlast. unfold new_TypedArray.
  case_decide; [lia|]. cbn [mbind JS.Completion_bind mret JS.Completion_ret elems].
  set (C := invertOffsets_arrayConstructor O).
  eexists. split; [reflexivity|].
  apply (offsets_fill
           (fun g c s => JS.set s c (wrap_unsigned (uint_bits C) g))
           (fun s => JS.len s = last)
           (fun c => 0 <= c < last)
           (fun g c s => JS.get s c = Some (wrap_unsigned (uint_bits C) g))).
  - intros g c s Hs. now rewrite len_set.
  - intros g c s Hs Hc. apply get_set_eq. lia.
  - intros g c g' c' s Hne HQ. now rewrite get_set_ne by congruence.
  - reflexivity.
  - apply HO.
  - intros g lo hi c Hlo Hhi Hc. apply (well_formed_range O g lo hi c last); assumption.
  - now apply len_replicate.
Qed.

(** C3, as the code has it: the element type is decided by the length of
    the offsets array alone. The result is an array of one of the three
    unsigned types, of the smallest width among 8, 16 and 32 bits that can
    represent [len(offsets)]; this width can represent [len(offsets) - 1].
    On [[0, 2, 5]] the result is the 8-bit array [[0, 0, 1, 1, 1]]. *)
Theorem invertOffsets_element_type (offsets : list Z) last :
  JS.get offsets (JS.len offsets - 1) = Some last -> 0 <= last ->
  JS.len offsets < 2 ^ 32 ->
  exists out,
    invertOffsets offsets = Normal out /\
    ctor out = (if decide (JS.len offsets < 2 ^ 8) then Uint8Array
                else if decide (JS.len offsets < 2 ^ 16) then Uint16Array
                else Uint32Array) /\
    representable (uint_bits (ctor out)) (JS.len offsets) /\
    (forall w, w = 8 \/ w = 16 \/ w = 32 -> representable w (JS.len offsets) ->
               uint_bits (ctor out) <= w) /\
    representable (uint_bits (ctor out)) (JS.len offsets - 1) /\
    invertOffsets [0; 2; 5] = Normal (mkTypedArray Uint8Array [0; 0; 1; 1; 1]).
Proof.
  intros Hlast Hpos Hlen. pose proof (get_Some_range _ _ _ Hlast) as Hr.
  unfold invertOffsets at 1. rewrite Hlast. unfold new_TypedArray.
  case_decide; [lia|]. cbn [mbind JS.Completion_bind mret JS.Completion_ret].
  eexists. split; [reflexivity|]. cbn [ctor].
  unfold invertOffsets_arrayConstructor, representable.
  repeat case_decide; cbn [uint_bits];
    (split; [reflexivity|]); (split; [lia|]);
    (split; [intros w [-> | [-> | ->]]; lia|]); (split; [lia|reflexivity]).
Qed.

Lemma invertOffsets_element_type_witness :
  exists out,
    invertOffsets [0; 0; 3] = Normal out /\
    ctor out = Uint8Array /\
    representable (uint_bits (ctor out)) 3.
Proof.
  destruct (invertOffsets_element_type [0; 0; 3] 3) as (out & Hrun & Hc & Hr & _);
    [reflexivity|lia|reflexivity|].
  exists out. repeat split; try assumption; apply Hr.
Defined.

(** C3 as the specification states it fails on the offsets array
    [[0, 1, ..., 255]] of 256 entries: it has 255 source items of one
    element each, the number 255 and every source index fit 8 bits, and
    the result is a 16-bit array. *)
Lemma invertOffsets_width_not_smallest :
  invertOffsets (seqZ 0 256) = Normal (mkTypedArray Uint16Array (seqZ 0 255)) /\
  JS.len (seqZ 0 256) - 1 = 255 /\
  representable 8 255 /\
  smallest_uint_width (JS.len (seqZ 0 256) - 1) = 8 /\
  uint_bits Uint16Array <> smallest_uint_width (JS.len (seqZ 0 256) - 1).
Proof. vm_compute. repeat split; congruence. Qed.

(** C4: on a well-formed offsets array, the result of [invertOffsets]
    holds [g] at every position of the range of source item [g], and every
    position of the result lies in the range of the item it holds. *)
Theorem invertOffsets_inverse (O : list Z) :
  well_formed O -> JS.len O <= 2 ^ 32 ->
  exists out,
    invertOffsets O = Normal out /\
    (forall g lo hi p,
        JS.get O g = Some lo -> JS.get O (g + 1) = Some hi -> lo <= p < hi ->
        JS.get (elems out) p = Some g) /\
    (forall p v,
        JS.get (elems out) p = Some v ->
        exists lo hi,
          JS.get O v = Some lo /\ JS.get O (v + 1) = Some hi /\ lo <= p < hi).
Proof.
  intros HO Hlen. destruct (well_formed_last O HO) as (last & Hlast & Hpos).
  destruct (invertOffsets_run O last HO Hlast) as (final & Hrun & Hfinal & Hfill).
  assert (Hexact : forall g lo hi p,
             JS.get O g = Some lo -> JS.get O (g + 1) = Some hi -> lo <= p < hi ->
             JS.get final p = Some g).
  { intros g lo hi p Hlo Hhi Hp. rewrite (Hfill g lo hi p Hlo Hhi Hp). f_equal.
    apply invertOffsets_index_fits; [assumption|].
    apply get_Some_range in Hlo, Hhi. lia. }
  eexists. split; [exact Hrun|]. cbn [elems]. split; [exact Hexact|].
  intros p v Hv. pose proof (get_Some_range _ _ _ Hv) as Hp. rewrite Hfinal in Hp.
  destruct (well_formed_covers O p last HO Hlast Hp) as (g & lo & hi & Hlo & Hhi & Hin).
  pose proof (Hexact g lo hi p Hlo Hhi Hin) as Hg.
  assert (v = g) by congruence. subst v. eauto.
Qed.

Lemma invertOffsets_inverse_witness :
  exists out,
    invertOffsets [0; 2; 5] = Normal out /\
    JS.get (elems out) 3 = Some 1.
Proof.
  destruct (invertOffsets_inverse [0; 2; 5]) as (out & Hrun & Hfill & _).
  - split; [reflexivity|]. simpl. lia.
  - vm_compute. discriminate.
  - exists out. split; [exact Hrun|].
    apply (Hfill 1 2 5 3); [reflexivity|reflexivity|lia].
Defined.

(** ** The accessor broadcaster *)

Section BroadcastFacts.
Context {A : Type} (zero : A) (store_undefined : TypedArrayKind -> A).
Context (input : TypedArray A) (size : Z).
Hypothesis size_pos : 1 <= size.

Lemma expand_coord_len g c (s : list A) :
  JS.len (expand_coord store_undefined input size g c s) = JS.len s.
Proof.
  unfold expand_coord.
  apply (for_loop_ind (fun _ t => JS.len t = JS.len s)); [lia|reflexivity|].
  intros k t _ Ht. now rewrite len_set.
Qed.

Lemma expand_coord_writes g c (s : list A) i :
  0 <= c -> (c + 1) * size <= JS.len s -> 0 <= i < size ->
  JS.get (expand_coord store_undefined input size g c s) (c * size + i)
  = Some (read_for_store store_undefined input (g * size + i)).
Proof.
  intros Hc Hlen Hi. unfold expand_coord.
  enough (G : JS.len (JS.for_loop 0 size
                        (fun i out => JS.set out (c * size + i)
                           (read_for_store store_undefined input (g * size + i))) s)
              = JS.len s /\
              forall j, 0 <= j < size ->
                JS.get (JS.for_loop 0 size
                          (fun i out => JS.set out (c * size + i)
                             (read_for_store store_undefined input (g * size + i))) s)
                  (c * size + j)
                = Some (read_for_store store_undefined input (g * size + j))).
  { now apply G. }
  apply (for_loop_ind
           (fun k t => JS.len t = JS.len s /\
              forall j, 0 <= j < k ->
                JS.get t (c * size + j)
                = Some (read_for_store store_undefined input (g * size + j))));
    [lia| |].
  - split; [reflexivity|]. intros; lia.
  - intros k t Hk [Hlt Hdone]. split; [now rewrite len_set|].
    intros j Hj. destruct (decide (j = k)) as [->|Hne].
    + apply get_set_eq. nia.
    + rewrite get_set_ne by lia. apply Hdone. lia.
Qed.

Lemma expand_coord_other g c (s : list A) p :
  ~ (c * size <= p < (c + 1) * size) ->
  JS.get (expand_coord store_undefined input size g c s) p = JS.get s p.
Proof.
  intros Hp. unfold expand_coord.
  apply (for_loop_ind (fun _ t => JS.get t p = JS.get s p)); [lia|reflexivity|].
  intros k t Hk Ht. rewrite get_set_ne by nia. exact Ht.
Qed.

(** C2: under the precondition of the broadcaster, on a well-formed
    offsets array, [expandArrayToCoords] returns; the result is built by
    the constructor of [input], has [size * R[last]] elements, and holds
    channel [i] of geometry [g] at channel [i] of every coordinate of the
    range of [g]; the iteration of a geometry of empty range leaves every
    buffer as it is. *)
Theorem expandArrayToCoords_spec (R : list Z) :
  well_formed R ->
  JS.len (elems input) = size * (JS.len R - 1) ->
  exists out last,
    JS.get R (JS.len R - 1) = Some last /\
    expandArrayToCoords zero store_undefined input size R = Normal out /\
    ctor out = ctor input /\
    JS.len (elems out) = size * last /\
    (forall g lo hi c i,
        JS.get R g = Some lo -> JS.get R (g + 1) = Some hi ->
        lo <= c < hi -> 0 <= i < size ->
        exists v, JS.get (elems input) (g * size + i) = Some v /\
                  JS.get (elems out) (c * size + i) = Some v) /\
    (forall g lo buf,
        JS.get R g = Some lo -> JS.get R (g + 1) = Some lo ->
        expand_geom store_undefined input size R g buf = buf).
Proof.
  intros HR Hlen. destruct (well_formed_last R HR) as (last & Hlast & Hpos).
  unfold expandArrayToCoords. rewrite Hlast. cbn [fmap option_fmap option_map].
  unfold new_TypedArray. case_decide; [nia|].
  cbn [mbind JS.Completion_bind mret JS.Completion_ret elems ctor].
  assert (Hfill : JS.len (JS.for_loop 0 (JS.len R - 1)
                            (expand_geom store_undefined input size R)
                            (replicate (Z.to_nat (last * size)) zero))
                  = last * size /\
                  forall g lo hi c,
                    JS.get R g = Some lo -> JS.get R (g + 1) = Some hi -> lo <= c < hi ->
                    forall i, 0 <= i < size ->
                      JS.get (JS.for_loop 0 (JS.len R - 1)
                                (expand_geom store_undefined input size R)
                                (replicate (Z.to_nat (last * size)) zero))
                        (c * size + i)
                      = Some (read_for_store store_undefined input (g * size + i))).
  { apply (offsets_fill
             (expand_coord store_undefined input size)
             (fun s => JS.len s = last * size)
             (fun c => 0 <= c < last)
             (fun g c s => forall i, 0 <= i < size ->
                JS.get s (c * size + i)
                = Some (read_for_store store_undefined input (g * size + i)))).
    - intros g c s Hs. now rewrite expand_coord_len.
    - intros g c s Hs Hc i Hi. apply expand_coord_writes; [lia|nia|lia].
    - intros g c g' c' s Hne HQ i Hi. rewrite expand_coord_other by nia. now apply HQ.
    - reflexivity.
    - apply HR.
    - intros g lo hi c Hlo Hhi Hc. apply (well_formed_range R g lo hi c last); assumption.
    - apply len_replicate. nia. }
  destruct Hfill as [Hfinal Hfill].
  eexists. exists last. split; [reflexivity|]. split; [reflexivity|].
  cbn [elems ctor]. split; [reflexivity|]. split; [lia|]. split.
  - intros g lo hi c i Hlo Hhi Hc Hi.
    destruct (get_in_range (elems input) (g * size + i)) as [v Hv].
    { apply get_Some_range in Hlo, Hhi. nia. }
    exists v. split; [assumption|].
    rewrite (Hfill g lo hi c Hlo Hhi Hc i Hi). unfold read_for_store. now rewrite Hv.
  - intros g lo buf Hlo Hhi. unfold expand_geom. rewrite Hlo, Hhi.
    apply for_loop_empty. lia.
Qed.

End BroadcastFacts.

Lemma expandArrayToCoords_spec_witness :
  exists out,
    expandArrayToCoords 0 (fun _ => 0) (mkTypedArray Uint8Array [10; 20]) 1 [0; 2; 5]
    = Normal out /\
    ctor out = Uint8Array /\ JS.len (elems out) = 5 /\
    JS.get (elems out) 4 = Some 20.
Proof.
  destruct (expandArrayToCoords_spec 0 (fun _ => 0)
              (mkTypedArray Uint8Array [10; 20]) 1 ltac:(lia) [0; 2; 5])
    as (out & last & Hlast & Hrun & Hctor & Hlen & Hfill & _).
  - split; [reflexivity|]. simpl. lia.
  - reflexivity.
  - exists out. split; [exact Hrun|]. split; [exact Hctor|].
    assert (last = 5) by (vm_compute in Hlast; congruence). subst last.
    split; [exact Hlen|].
    destruct (Hfill 1 2 5 4 0) as (v & Hv & Hout);
      [reflexivity|reflexivity|lia|lia|].
    vm_compute in Hv. change (4 * 1 + 0) with 4 in Hout. congruence.
Defined.

(** ** The offset resolvers *)

Lemma wrap_signed_int32 v : is_int32 v -> wrap_signed 32 v = v.
Proof.
  unfold is_int32, wrap_signed. intros H.
  rewrite Z.mod_small; lia.
Qed.

Lemma Int32Array_ok_get (O : list Z) i v :
  Int32Array_ok O -> JS.get O i = Some v -> is_int32 v.
Proof.
  unfold Int32Array_ok, JS.get. intros HO. case_decide; [|discriminate].
  intros Hv. exact (proj1 (Forall_lookup _ _) HO _ _ Hv).
Qed.

Lemma indexes_into_get (outer inner : list Z) i a :
  indexes_into outer inner -> JS.get outer i = Some a ->
  exists v, JS.get inner a = Some v.
Proof.
  unfold indexes_into, JS.get at 1. intros HO. case_decide; [|discriminate].
  intros Ha. apply get_in_range. exact (proj1 (Forall_lookup _ _) HO _ _ Ha).
Qed.

(** The loop [for (i = 0; i < r.length; ++i) r[i] = h(i)]. *)
Lemma resolve_loop (h : Z -> Z) (r0 : list Z) :
  JS.len (JS.for_loop 0 (JS.len r0) (fun i r => JS.set r i (h i)) r0) = JS.len r0 /\
  forall i, 0 <= i < JS.len r0 ->
    JS.get (JS.for_loop 0 (JS.len r0) (fun i r => JS.set r i (h i)) r0) i = Some (h i).
Proof.
  apply (for_loop_ind
           (fun k t => JS.len t = JS.len r0 /\
                       forall i, 0 <= i < k -> JS.get t i = Some (h i))).
  - unfold JS.len. lia.
  - split; [reflexivity|]. intros; lia.
  - intros k t Hk [Hlen Hdone]. split; [now rewrite len_set|].
    intros i Hi. destruct (decide (i = k)) as [->|Hne].
    + apply get_set_eq. lia.
    + rewrite get_set_ne by lia. apply Hdone. lia.
Qed.

(** What every resolver computes, whatever the arrays are. *)
Lemma resolved_array (O1 : list Z) (h : Z -> option Z) :
  exists R,
    new_TypedArray 0 Int32Array (Some (JS.len O1)) ≫=
      (fun resolved : TypedArray Z =>
         mret (JS.for_loop 0 (JS.len (elems resolved))
                 (fun i r => JS.set r i (store_int32 (h i))) (elems resolved)))
    = Normal R /\
    JS.len R = JS.len O1 /\
    forall i, 0 <= i < JS.len O1 -> JS.get R i = Some (store_int32 (h i)).
Proof.
  unfold new_TypedArray. case_decide; [unfold JS.len in *; lia|].
  cbn [mbind JS.Completion_bind mret JS.Completion_ret elems].
  eexists. split; [reflexivity|].
  pose proof (resolve_loop (fun i => store_int32 (h i))
                (replicate (Z.to_nat (JS.len O1)) 0)) as [Hlen Hget].
  rewrite len_replicate in Hlen, Hget by (unfold JS.len; lia).
  rewrite len_replicate by (unfold JS.len; lia). split; assumption.
Qed.

(** A resolved array is well formed when the outer array is and the
    indirection [h] starts at 0 and is monotone. *)
Lemma resolved_well_formed (O R : list Z) (h : Z -> option Z) :
  JS.len R = JS.len O ->
  (forall i, 0 <= i < JS.len O ->
     exists a v, JS.get O i = Some a /\ h a = Some v /\ JS.get R i = Some v) ->
  well_formed O ->
  (forall a b u v, a <= b -> h a = Some u -> h b = Some v -> u <= v) ->
  (forall v, h 0 = Some v -> v = 0) ->
  well_formed R.
Proof.
  intros Hlen HR [H0 Hmono] Hh Hh0. split.
  - pose proof (get_Some_range _ _ _ H0) as Hr.
    destruct (HR 0 Hr) as (a & v & Ha & Hv & HRv).
    assert (a = 0) by congruence. subst a. rewrite HRv. f_equal. now apply Hh0.
  - apply non_decreasing_intro. intros i u v Hu Hv.
    assert (Hi : 0 <= Z.of_nat i /\ Z.of_nat i + 1 < JS.len O).
    { apply lookup_lt_Some in Hv. unfold JS.len in *. lia. }
    destruct (HR (Z.of_nat i) ltac:(lia)) as (a & u' & Ha & Hu' & HRu).
    destruct (HR (Z.of_nat i + 1) ltac:(lia)) as (b & v' & Hb & Hv' & HRv).
    assert (JS.get R (Z.of_nat i) = Some u) as HRu2.
    { unfold JS.get. case_decide; [|lia]. now rewrite Nat2Z.id. }
    assert (JS.get R (Z.of_nat i + 1) = Some v) as HRv2.
    { unfold JS.get. case_decide; [|lia].
      now replace (Z.to_nat (Z.of_nat i + 1)) with (Datatypes.S i) by lia. }
    assert (u' = u) by congruence. assert (v' = v) by congruence. subst.
    apply (Hh a b u v); try assumption.
    apply (non_decreasing_get O (Z.of_nat i) (Z.of_nat i + 1) a b); try assumption. lia.
Qed.

Section ResolverFacts.
Context {A : Type}.
Implicit Types data polygonData ringData : arrow.Data A.

Lemma child0_Some data c :
  JS.get (arrow.children data) 0 = Some c -> child0 data = Normal c.
Proof. unfold child0. now intros ->. Qed.

(** Two levels: [R[i] = O2[O1[i]]]. *)
Lemma resolved_two_levels data ringData :
  JS.get (arrow.children data) 0 = Some ringData ->
  indexes_into (arrow.valueOffsets data) (arrow.valueOffsets ringData) ->
  Int32Array_ok (arrow.valueOffsets ringData) ->
  exists R,
    getPolygonResolvedOffsets data = Normal R /\
    getMultiLineStringResolvedOffsets data = Normal R /\
    JS.len R = JS.len (arrow.valueOffsets data) /\
    forall i, 0 <= i < JS.len (arrow.valueOffsets data) ->
      exists a v,
        JS.get (arrow.valueOffsets data) i = Some a /\
        JS.get (arrow.valueOffsets ringData) a = Some v /\
        JS.get R i = Some v.
Proof.
  intros Hchild Hchain Hint.
  destruct (resolved_array (arrow.valueOffsets data)
              (lookup_through (arrow.valueOffsets data) (arrow.valueOffsets ringData)))
    as (R & Hrun & Hlen & Hget).
  exists R. unfold getPolygonResolvedOffsets, getMultiLineStringResolvedOffsets,
    getPolygonChild, getMultiLineStringChild.
  rewrite (child0_Some _ _ Hchild). cbn [mbind JS.Completion_bind].
  repeat (split; [assumption|]).
  intros i Hi. destruct (get_in_range _ i Hi) as [a Ha].
  destruct (indexes_into_get _ _ i a Hchain Ha) as [v Hv].
  exists a, v. repeat (split; [assumption|]).
  rewrite (Hget i Hi). unfold lookup_through. rewrite Ha. cbn [mbind option_bind].
  rewrite Hv. cbn [store_int32]. f_equal.
  apply wrap_signed_int32. exact (Int32Array_ok_get _ _ _ Hint Hv).
Qed.

(** Three levels: [R[i] = O3[O2[O1[i]]]]. *)
Lemma resolved_three_levels data polygonData ringData :
  JS.get (arrow.children data) 0 = Some polygonData ->
  JS.get (arrow.children polygonData) 0 = Some ringData ->
  indexes_into (arrow.valueOffsets data) (arrow.valueOffsets polygonData) ->
  indexes_into (arrow.valueOffsets polygonData) (arrow.valueOffsets ringData) ->
  Int32Array_ok (arrow.valueOffsets ringData) ->
  exists R,
    getMultiPolygonResolvedOffsets data = Normal R /\
    JS.len R = JS.len (arrow.valueOffsets data) /\
    forall i, 0 <= i < JS.len (arrow.valueOffsets data) ->
      exists a b v,
        JS.get (arrow.valueOffsets data) i = Some a /\
        JS.get (arrow.valueOffsets polygonData) a = Some b /\
        JS.get (arrow.valueOffsets ringData) b = Some v /\
        JS.get R i = Some v.
Proof.
  intros Hc1 Hc2 Hchain1 Hchain2 Hint.
  destruct (resolved_array (arrow.valueOffsets data)
              (fun i => a ← lookup_through (arrow.valueOffsets data)
                                           (arrow.valueOffsets polygonData) i;
                        JS.get (arrow.valueOffsets ringData) a))
    as (R & Hrun & Hlen & Hget).
  exists R. unfold getMultiPolygonResolvedOffsets, getPolygonChild, getMultiPolygonChild.
  rewrite (child0_Some _ _ Hc1). cbn [mbind JS.Completion_bind].
  rewrite (child0_Some _ _ Hc2). cbn [mbind JS.Completion_bind].
  repeat (split; [assumption|]).
  intros i Hi. destruct (get_in_range _ i Hi) as [a Ha].
  destruct (indexes_into_get _ _ i a Hchain1 Ha) as [b Hb].
  destruct (indexes_into_get _ _ a b Hchain2 Hb) as [v Hv].
  exists a, b, v. repeat (split; [assumption|]).
  rewrite (Hget i Hi). unfold lookup_through. rewrite Ha. cbn [mbind option_bind].
  rewrite Hb. cbn [mbind option_bind]. rewrite Hv. cbn [store_int32]. f_equal.
  apply wrap_signed_int32. exact (Int32Array_ok_get _ _ _ Hint Hv).
Qed.

(** C5: over a chain of two offsets arrays, [getPolygonResolvedOffsets]
    and [getMultiLineStringResolvedOffsets] return an array [R] as long as
    the outer array with [R[i] = O2[O1[i]]] at every index; over a chain
    of three, [getMultiPolygonResolvedOffsets] returns [R] as long as the
    outer array with [R[i] = O3[O2[O1[i]]]]. *)
Theorem resolved_offsets_chain :
  (forall data ringData,
      JS.get (arrow.children data) 0 = Some ringData ->
      indexes_into (arrow.valueOffsets data) (arrow.valueOffsets ringData) ->
      Int32Array_ok (arrow.valueOffsets ringData) ->
      exists R,
        getPolygonResolvedOffsets data = Normal R /\
        getMultiLineStringResolvedOffsets data = Normal R /\
        JS.len R = JS.len (arrow.valueOffsets data) /\
        forall i, 0 <= i < JS.len (arrow.valueOffsets data) ->
          exists a v,
            JS.get (arrow.valueOffsets data) i = Some a /\
            JS.get (arrow.valueOffsets ringData) a = Some v /\
            JS.get R i = Some v) /\
  (forall data polygonData ringData,
      JS.get (arrow.children data) 0 = Some polygonData ->
      JS.get (arrow.children polygonData) 0 = Some ringData ->
      indexes_into (arrow.valueOffsets data) (arrow.valueOffsets polygonData) ->
      indexes_into (arrow.valueOffsets polygonData) (arrow.valueOffsets ringData) ->
      Int32Array_ok (arrow.valueOffsets ringData) ->
      exists R,
        getMultiPolygonResolvedOffsets data = Normal R /\
        JS.len R = JS.len (arrow.valueOffsets data) /\
        forall i, 0 <= i < JS.len (arrow.valueOffsets data) ->
          exists a b v,
            JS.get (arrow.valueOffsets data) i = Some a /\
            JS.get (arrow.valueOffsets polygonData) a = Some b /\
            JS.get (arrow.valueOffsets ringData) b = Some v /\
            JS.get R i = Some v).
Proof.
  split.
  - exact resolved_two_levels.
  - exact resolved_three_levels.
Qed.

(** C6: the resolved offsets of a chain of well-formed offsets arrays are
    well formed: the first is 0 and they do not decrease. *)
Theorem resolved_offsets_well_formed :
  (forall data ringData,
      JS.get (arrow.children data) 0 = Some ringData ->
      indexes_into (arrow.valueOffsets data) (arrow.valueOffsets ringData) ->
      Int32Array_ok (arrow.valueOffsets ringData) ->
      well_formed (arrow.valueOffsets data) ->
      well_formed (arrow.valueOffsets ringData) ->
      exists R, getPolygonResolvedOffsets data = Normal R /\ well_formed R) /\
  (forall data polygonData ringData,
      JS.get (arrow.children data) 0 = Some polygonData ->
      JS.get (arrow.children polygonData) 0 = Some ringData ->
      indexes_into (arrow.valueOffsets data) (arrow.valueOffsets polygonData) ->
      indexes_into (arrow.valueOffsets polygonData) (arrow.valueOffsets ringData) ->
      Int32Array_ok (arrow.valueOffsets ringData) ->
      well_formed (arrow.valueOffsets data) ->
      well_formed (arrow.valueOffsets polygonData) ->
      well_formed (arrow.valueOffsets ringData) ->
      exists R, getMultiPolygonResolvedOffsets data = Normal R /\ well_formed R).
Proof.
  split.
  - intros data ringData Hc Hchain Hint H1 H2.
    destruct (resolved_two_levels data ringData Hc Hchain Hint)
      as (R & Hrun & _ & Hlen & Hget).
    exists R. split; [assumption|].
    apply (resolved_well_formed (arrow.valueOffsets data) R
             (JS.get (arrow.valueOffsets ringData))); try assumption.
    + intros a b u v Hab Hu Hv.
      exact (non_decreasing_get _ a b u v (proj2 H2) Hab Hu Hv).
    + intros v Hv. destruct H2 as [H2 _]. congruence.
  - intros data polygonData ringData Hc1 Hc2 Hchain1 Hchain2 Hint H1 H2 H3.
    destruct (resolved_three_levels data polygonData ringData Hc1 Hc2 Hchain1 Hchain2 Hint)
      as (R & Hrun & Hlen & Hget).
    exists R. split; [assumption|].
    apply (resolved_well_formed (arrow.valueOffsets data) R
             (fun a => b ← JS.get (arrow.valueOffsets polygonData) a;
                       JS.get (arrow.valueOffsets ringData) b)); try assumption.
    + intros i Hi. destruct (Hget i Hi) as (a & b & v & Ha & Hb & Hv & HR).
      exists a, v. split; [assumption|]. split; [|assumption].
      rewrite Hb. exact Hv.
    + intros a b u v Hab Hu Hv.
      destruct (JS.get (arrow.valueOffsets polygonData) a) as [a'|] eqn:Ea; [|discriminate].
      destruct (JS.get (arrow.valueOffsets polygonData) b) as [b'|] eqn:Eb; [|discriminate].
      cbn [mbind option_bind] in Hu, Hv.
      apply (non_decreasing_get _ a' b' u v (proj2 H3)); try assumption.
      exact (non_decreasing_get _ a b a' b' (proj2 H2) Hab Ea Eb).
    + intros v Hv. destruct H2 as [H2 _], H3 as [H3 _]. rewrite H2 in Hv.
      cbn [mbind option_bind] in Hv. congruence.
Qed.

End ResolverFacts.

Lemma resolved_offsets_chain_witness :
  (exists R, getPolygonResolvedOffsets Sample.polygonData = Normal R /\
             JS.len R = 3 /\ JS.get R 1 = Some 4) /\
  (exists R, getMultiPolygonResolvedOffsets Sample.multiPolygonData = Normal R /\
             JS.len R = 2 /\ JS.get R 1 = Some 7).
Proof.
  destruct (@resolved_offsets_chain Z) as [H2 H3]. split.
  - destruct (H2 Sample.polygonData Sample.ringData) as (R & HR & _ & Hlen & Hget).
    + reflexivity.
    + repeat constructor; vm_compute; congruence.
    + repeat constructor; vm_compute; congruence.
    + exists R. split; [exact HR|]. split; [exact Hlen|].
      destruct (Hget 1) as (a & v & Ha & Hv & HRv); [vm_compute; split; congruence|].
      vm_compute in Ha. injection Ha as <-. vm_compute in Hv. congruence.
  - destruct (H3 Sample.multiPolygonData Sample.polygonData Sample.ringData)
      as (R & HR & Hlen & Hget).
    + reflexivity.
    + reflexivity.
    + repeat constructor; vm_compute; congruence.
    + repeat constructor; vm_compute; congruence.
    + repeat constructor; vm_compute; congruence.
    + exists R. split; [exact HR|]. split; [exact Hlen|].
      destruct (Hget 1) as (a & b & v & Ha & Hb & Hv & HRv);
        [vm_compute; split; congruence|].
      vm_compute in Ha. injection Ha as <-. vm_compute in Hb. injection Hb as <-.
      vm_compute in Hv. congruence.
Defined.

Lemma resolved_offsets_well_formed_witness :
  (exists R, getPolygonResolvedOffsets Sample.polygonData = Normal R /\ well_formed R) /\
  (exists R, getMultiPolygonResolvedOffsets Sample.multiPolygonData = Normal R /\
             well_formed R).
Proof.
  destruct (@resolved_offsets_well_formed Z) as [H2 H3]. split.
  - apply (H2 Sample.polygonData Sample.ringData).
    + reflexivity.
    + repeat constructor; vm_compute; congruence.
    + repeat constructor; vm_compute; congruence.
    + split; [reflexivity|]. simpl. lia.
    + split; [reflexivity|]. simpl. lia.
  - apply (H3 Sample.multiPolygonData Sample.polygonData Sample.ringData).
    + reflexivity.
    + reflexivity.
    + repeat constructor; vm_compute; congruence.
    + repeat constructor; vm_compute; congruence.
    + repeat constructor; vm_compute; congruence.
    + split; [reflexivity|]. simpl. lia.
    + split; [reflexivity|]. simpl. lia.
    + split; [reflexivity|]. simpl. lia.
Defined.

(** ** The picking-colour encoder *)

Lemma write_color_len color offset (s : list Z) :
  JS.len (write_color color offset s) = JS.len s.
Proof. unfold write_color. now rewrite !len_set. Qed.

(** The buffer has one byte per coordinate, whatever the callback is: it
    is allocated with [R[last]] elements, and stores do not grow it. *)
Lemma encodePickingColors_length (R : list Z) enc :
  well_formed R ->
  exists out last,
    JS.get R (JS.len R - 1) = Some last /\
    encodePickingColors R enc = Normal out /\
    ctor out = Uint8ClampedArray /\
    JS.len (elems out) = last.
Proof.
  intros HR. destruct (well_formed_last R HR) as (last & Hlast & Hpos).
  unfold encodePickingColors. rewrite Hlast. unfold new_TypedArray.
  case_decide; [lia|]. cbn [mbind JS.Completion_bind mret JS.Completion_ret elems].
  eexists. exists last. split; [reflexivity|]. split; [reflexivity|].
  split; [reflexivity|]. cbn [elems].
  destruct (decide (0 <= JS.len R - 1)) as [Hle|Hgt].
  2:{ apply get_Some_range in Hlast. lia. }
  apply (for_loop_ind (fun _ (st : list Z * list Z) => JS.len (snd st) = last));
    [assumption| |].
  - now apply len_replicate.
  - intros k [color buf] Hk Hbuf. cbn [snd] in Hbuf.
    unfold encodePickingColors_step.
    destruct (JS.get R k) as [lo|]; [|exact Hbuf].
    destruct (JS.get R (k + 1)) as [hi|]; [|exact Hbuf].
    cbn [snd]. destruct (decide (lo <= hi)) as [Hlh|Hlh].
    + apply (for_loop_ind (fun _ t => JS.len t = last)); [assumption|assumption|].
      intros c t _ Ht. now rewrite write_color_len.
    + rewrite for_loop_empty by lia. exact Hbuf.
Qed.

(** C1 does not hold of the code: at the offsets [[0, 2]], one feature of
    two coordinates, with deck.gl's encoder, whose colour for feature 0 is
    (1, 0, 0), the buffer has two bytes, not six, and the second
    coordinate has no byte at all. *)
Theorem encodePickingColors_short_buffer :
  encodePickingColors [0; 2] deck_encodePickingColor
  = Normal (mkTypedArray Uint8ClampedArray [1; 0]) /\
  JS.len [1; 0] <> 3 * 2 /\
  JS.get [1; 0] (3 * 1) = None.
Proof. vm_compute. repeat split; congruence. Qed.

(** ** The accessor dispatcher *)

Section DispatcherFacts.
Context {A V : Type} (zero : A) (store_undefined : TypedArrayKind -> A).
Implicit Types (props : @LayerProps A V) (columnData child : arrow.Data A).

Local Notation assign := (assignAccessor zero store_undefined).
Local Notation expand := (expandArrayToCoords zero store_undefined).

(** C7, as the code has it. An absent input assigns nothing. A vector whose
    chunk at [chunkIdx] is a fixed-size list with its one child, or a
    column of floats, has the values of that chunk assigned into the
    attribute table, as they are when no offsets are given, and as
    [expandArrayToCoords] returns them, or raising what it raises, when
    offsets are given. Any other value is set on the props themselves. *)
Theorem assignAccessor_routes props propName chunkIdx geomCoordOffsets :
  assign props propName Undefined chunkIdx geomCoordOffsets = Normal props /\
  (forall data columnData listSize childType child,
      JS.get data chunkIdx = Some columnData ->
      arrow.type columnData = arrow.FixedSizeList listSize childType ->
      arrow.children columnData = [child] ->
      assign props propName (Vector data) chunkIdx geomCoordOffsets
      = match geomCoordOffsets with
        | None =>
            Normal (mkLayerProps (own props)
                      (<[propName := mkAttribute (arrow.values child) listSize (Some true)]>
                         (attributes props)))
        | Some offsets =>
            match expand (arrow.values child) listSize offsets with
            | Normal expanded =>
                Normal (mkLayerProps (own props)
                          (<[propName := mkAttribute expanded listSize (Some true)]>
                             (attributes props)))
            | Throw e => Throw e
            end
        end) /\
  (forall data columnData,
      JS.get data chunkIdx = Some columnData ->
      arrow.type columnData = arrow.Float ->
      assign props propName (Vector data) chunkIdx geomCoordOffsets
      = match geomCoordOffsets with
        | None =>
            Normal (mkLayerProps (own props)
                      (<[propName := mkAttribute (arrow.values columnData) 1 None]>
                         (attributes props)))
        | Some offsets =>
            match expand (arrow.values columnData) 1 offsets with
            | Normal expanded =>
                Normal (mkLayerProps (own props)
                          (<[propName := mkAttribute expanded 1 None]>
                             (attributes props)))
            | Throw e => Throw e
            end
        end) /\
  (forall v,
      assign props propName (Value v) chunkIdx geomCoordOffsets
      = Normal (mkLayerProps (<[propName := v]> (own props)) (attributes props))).
Proof.
  split; [reflexivity|]. split; [|split; [|reflexivity]].
  - intros data columnData listSize childType child Hchunk Htype Hchildren.
    unfold assignAccessor. rewrite Hchunk, Htype.
    unfold child0. rewrite Hchildren.
    rewrite bool_decide_eq_true_2 by reflexivity.
    change (JS.get [child] 0) with (Some child).
    cbn [assert mbind JS.Completion_bind mret JS.Completion_ret].
    destruct geomCoordOffsets as [offsets|]; cbn [expand_if_offsets]; [|reflexivity].
    destruct (expand (arrow.values child) listSize offsets);
      reflexivity.
  - intros data columnData Hchunk Htype.
    unfold assignAccessor. rewrite Hchunk, Htype.
    destruct geomCoordOffsets as [offsets|]; cbn [expand_if_offsets]; [|reflexivity].
    destruct (expand (arrow.values columnData) 1 offsets);
      reflexivity.
Qed.

(** C9: a vector whose chunk is neither a fixed-size list nor a column of
    floats is ignored: the call returns, and returns the props it was
    given. *)
Theorem assignAccessor_other_vector_ignored props propName data chunkIdx geomCoordOffsets :
  arrow.isFixedSizeList (JS.get data chunkIdx) = false ->
  arrow.isFloat (JS.get data chunkIdx) = false ->
  assign props propName (Vector data) chunkIdx geomCoordOffsets = Normal props.
Proof.
  unfold assignAccessor, arrow.isFixedSizeList, arrow.isFloat.
  destruct (JS.get data chunkIdx) as [columnData|]; [|reflexivity].
  destruct (arrow.type columnData); try reflexivity; discriminate.
Qed.

(** C10: an attribute assigned from a fixed-size list has [normalized]
    set to [true], whatever the type of the child; an attribute assigned
    from a column of floats has no [normalized] key; and with no offsets
    given both are assigned. *)
Theorem assignAccessor_normalized props propName data chunkIdx geomCoordOffsets columnData :
  JS.get data chunkIdx = Some columnData ->
  (forall listSize childType props',
      arrow.type columnData = arrow.FixedSizeList listSize childType ->
      assign props propName (Vector data) chunkIdx geomCoordOffsets = Normal props' ->
      exists values,
        attributes props' !! propName = Some (mkAttribute values listSize (Some true))) /\
  (forall props',
      arrow.type columnData = arrow.Float ->
      assign props propName (Vector data) chunkIdx geomCoordOffsets = Normal props' ->
      exists values,
        attributes props' !! propName = Some (mkAttribute values 1 None)) /\
  (forall listSize childType child,
      arrow.type columnData = arrow.FixedSizeList listSize childType ->
      arrow.children columnData = [child] ->
      exists props',
        assign props propName (Vector data) chunkIdx None = Normal props' /\
        normalized <$> attributes props' !! propName = Some (Some true)) /\
  (arrow.type columnData = arrow.Float ->
   exists props',
     assign props propName (Vector data) chunkIdx None = Normal props' /\
     normalized <$> attributes props' !! propName = Some None).
Proof.
  intros Hchunk. unfold assignAccessor. rewrite Hchunk.
  split; [|split; [|split]].
  - intros listSize childType props' ->.
    destruct (assert _); cbn [mbind JS.Completion_bind]; [|discriminate].
    destruct (child0 columnData) as [child|]; cbn [mbind JS.Completion_bind];
      [|discriminate].
    destruct (expand_if_offsets _ _ _ _ _) as [values|];
      cbn [mbind JS.Completion_bind mret JS.Completion_ret]; [|discriminate].
    intros [= <-]. exists values. cbn [attributes]. apply lookup_insert_eq.
  - intros props' ->.
    destruct (expand_if_offsets _ _ _ _ _) as [values|];
      cbn [mbind JS.Completion_bind mret JS.Completion_ret]; [|discriminate].
    intros [= <-]. exists values. cbn [attributes]. apply lookup_insert_eq.
  - intros listSize childType child -> Hchildren. unfold child0. rewrite Hchildren.
    rewrite bool_decide_eq_true_2 by reflexivity.
    eexists. split; [reflexivity|]. cbn [attributes]. now rewrite lookup_insert_eq.
  - intros ->. eexists. split; [reflexivity|]. cbn [attributes].
    now rewrite lookup_insert_eq.
Qed.

End DispatcherFacts.

Lemma assignAccessor_routes_witness :
  (exists props',
      assignAccessor 0 (fun _ => 0) Sample.props0 "getFillColor"
        (Vector [Sample.colorData]) 0 (Some [0; 1; 3]) = Normal props' /\
      attributes props' !! "getFillColor"%string
      = Some (mkAttribute
                (mkTypedArray Uint8Array [255; 0; 0; 255; 0; 255; 0; 255; 0; 255; 0; 255])
                4 (Some true))) /\
  (exists props',
      assignAccessor 0 (fun _ => 0) Sample.props0 "getElevation"
        (Vector [Sample.elevationData]) 0 None = Normal props' /\
      attributes props' !! "getElevation"%string
      = Some (mkAttribute (mkTypedArray Float32Array [10; 20]) 1 None)) /\
  (exists props',
      assignAccessor 0 (fun _ => 0) Sample.props0 "getElevation"
        (@Value Z Z 1000) 0 None = Normal props' /\
      own props' !! "getElevation"%string = Some 1000 /\
      attributes props' = ∅).
Proof.
  split; [|split].
  - destruct (assignAccessor_routes 0 (fun _ => 0) Sample.props0 "getFillColor" 0
                (Some [0; 1; 3])) as (_ & Hlist & _ & _).
    specialize (Hlist [Sample.colorData] Sample.colorData 4 (arrow.Int false 8)
                  _ eq_refl eq_refl eq_refl).
    eexists. split; [exact Hlist|]. reflexivity.
  - destruct (assignAccessor_routes 0 (fun _ => 0) Sample.props0 "getElevation" 0
                None) as (_ & _ & Hfloat & _).
    specialize (Hfloat [Sample.elevationData] Sample.elevationData eq_refl eq_refl).
    eexists. split; [exact Hfloat|]. reflexivity.
  - destruct (assignAccessor_routes 0 (fun _ => 0) Sample.props0 "getElevation" 0
                None) as (_ & _ & _ & Hvalue).
    eexists. split; [exact (Hvalue 1000)|]. split; reflexivity.
Defined.

(** C7 as the specification states it fails on a vector of 32-bit
    integers: with offsets or without, nothing is assigned into the
    attribute table. *)
Lemma assignAccessor_int_vector_unassigned :
  assignAccessor 0 (fun _ => 0) Sample.props0 "getElevation"
    (@Vector Z Z [Sample.idData]) 0 None = Normal Sample.props0 /\
  assignAccessor 0 (fun _ => 0) Sample.props0 "getElevation"
    (@Vector Z Z [Sample.idData]) 0 (Some [0; 1; 3]) = Normal Sample.props0 /\
  attributes Sample.props0 !! "getElevation"%string = None.
Proof. repeat split; reflexivity. Qed.

Lemma assignAccessor_other_vector_ignored_witness :
  assignAccessor 0 (fun _ => 0)
    (mkLayerProps (<["id" := 5]> ∅) (@attributes Z Z Sample.props0)) "getFillColor"
    (Vector [Sample.colorData; Sample.idData]) 1 (Some [0; 1; 3])
  = Normal (mkLayerProps (<["id" := 5]> ∅) (@attributes Z Z Sample.props0)).
Proof.
  apply (assignAccessor_other_vector_ignored 0 (fun _ => 0)); reflexivity.
Defined.

Lemma assignAccessor_normalized_witness :
  exists props',
    assignAccessor 0 (fun _ => 0) Sample.props0 "getFillColor"
      (Vector [Sample.colorData]) 0 None = Normal props' /\
    normalized <$> attributes props' !! "getFillColor"%string = Some (Some true).
Proof.
  destruct (assignAccessor_normalized 0 (fun _ => 0) Sample.props0 "getFillColor"
              [Sample.colorData] 0 None Sample.colorData eq_refl)
    as (_ & _ & Hlist & _).
  exact (Hlist 4 (arrow.Int false 8) _ eq_refl eq_refl).
Defined.

(** ** Picking *)

Section PickingFacts.
Context {Row Info : Type}.
Implicit Types (table : @Table Row) (info : @PickingInfo Row Info).

Lemma chunk_offsets_from_lookup (chunks : list (@RecordBatch Row)) acc (k : nat) :
  (k <= length chunks)%nat ->
  chunk_offsets_from acc chunks !! k
  = Some (acc + foldr Z.add 0 ((fun b => JS.len (rows b)) <$> take k chunks)).
Proof.
  revert acc k. induction chunks as [|c cs IH]; intros acc k Hk.
  - destruct k; [|simpl in Hk; lia]. simpl. f_equal. lia.
  - destruct k as [|k]; [simpl; f_equal; lia|].
    cbn [chunk_offsets_from lookup list_lookup]. rewrite IH by (simpl in Hk; lia).
    cbn [take fmap list_fmap foldr]. apply (f_equal Some). lia.
Qed.

Lemma Table_ok_offset table k :
  Table_ok table -> 0 <= k <= JS.len (batches table) ->
  JS.get (_offsets table) k = Some (rows_before table k).
Proof.
  unfold Table_ok, computeChunkOffsets, JS.get, rows_before.
  intros -> Hk. case_decide; [|lia].
  rewrite chunk_offsets_from_lookup by (unfold JS.len in Hk; lia).
  apply (f_equal Some). lia.
Qed.

(** C8: the index that [getPickingInfo] returns is the index of the
    picked row in its batch, which the polygon layer reads from the
    inverted offsets when the sub-layer has them, plus the number of rows
    of the batches before batch [recordBatchIdx]. *)
Theorem getPickingInfo_global_index table info sourceLayer batch i :
  Table_ok table ->
  JS.get (batches table) (recordBatchIdx sourceLayer) = Some batch ->
  index info = Some i ->
  (forall inverted local,
      invertedGeomOffsets sourceLayer = Some inverted ->
      JS.get (elems inverted) i = Some local ->
      SolidPolygon_getPickingInfo table info sourceLayer
      = Normal (mkPickingInfo
                  (Some (local + rows_before table (recordBatchIdx sourceLayer)))
                  (JS.get (rows batch) local) (rest info))) /\
  (invertedGeomOffsets sourceLayer = None ->
   SolidPolygon_getPickingInfo table info sourceLayer
   = Normal (mkPickingInfo
               (Some (i + rows_before table (recordBatchIdx sourceLayer)))
               (JS.get (rows batch) i) (rest info))) /\
  (invertedGeomOffsets sourceLayer = None ->
   Arc_getPickingInfo table info sourceLayer
   = Normal (mkPickingInfo
               (Some (i + rows_before table (recordBatchIdx sourceLayer)))
               (JS.get (rows batch) i) (rest info))).
Proof.
  intros Hok Hbatch Hidx.
  pose proof (get_Some_range _ _ _ Hbatch) as Hr.
  pose proof (Table_ok_offset table (recordBatchIdx sourceLayer) Hok ltac:(lia)) as Hoff.
  unfold SolidPolygon_getPickingInfo, Arc_getPickingInfo.
  rewrite Hbatch, Hoff, Hidx. split; [|split].
  - intros inverted local -> Hlocal. cbn [mbind option_bind]. rewrite Hlocal.
    reflexivity.
  - intros ->. reflexivity.
  - intros _. reflexivity.
Qed.

End PickingFacts.

Lemma getPickingInfo_global_index_witness :
  SolidPolygon_getPickingInfo Sample.table (mkPickingInfo (Some 2) None tt)
    (mkSourceLayerProps 1 (Some (mkTypedArray Uint8Array [0; 0; 1; 1; 1])))
  = Normal (mkPickingInfo (Some 3) (Some 201) tt) /\
  Arc_getPickingInfo Sample.table (mkPickingInfo (Some 2) None tt)
    (mkSourceLayerProps 1 None)
  = Normal (mkPickingInfo (Some 4) (Some 202) tt).
Proof.
  split.
  - destruct (getPickingInfo_global_index Sample.table (mkPickingInfo (Some 2) None tt)
                (mkSourceLayerProps 1 (Some (mkTypedArray Uint8Array [0; 0; 1; 1; 1])))
                (mkRecordBatch [200; 201; 202]) 2 eq_refl eq_refl eq_refl)
      as (Hpoly & _ & _).
    exact (Hpoly _ 1 eq_refl eq_refl).
  - destruct (getPickingInfo_global_index Sample.table (mkPickingInfo (Some 2) None tt)
                (mkSourceLayerProps 1 None)
                (mkRecordBatch [200; 201; 202]) 2 eq_refl eq_refl eq_refl)
      as (_ & _ & Harc).
    exact (Harc eq_refl).
Defined.

(** ** The scenarios of the specification *)

Example expandArrayToCoords_scenario :
  expandArrayToCoords 0 (fun _ => 0) (mkTypedArray Float32Array [10; 20]) 1 [0; 2; 5]
  = Normal (mkTypedArray Float32Array [10; 10; 20; 20; 20]).
Proof. reflexivity. Qed.

Example invertOffsets_scenario :
  invertOffsets [0; 2; 5] = Normal (mkTypedArray Uint8Array [0; 0; 1; 1; 1]).
Proof. reflexivity. Qed.

Example resolved_empty_ring_scenario :
  getPolygonResolvedOffsets Sample.polygonData = Normal [0; 4; 7] /\
  getMultiPolygonResolvedOffsets Sample.multiPolygonData = Normal [0; 7].
Proof. split; reflexivity. Qed.

(** * Further properties of the code *)

(** ** The geometry type classifiers *)

(** A point type: a fixed-size list of 2 or 3 floats. *)
Lemma isPointVector_shape t :
  isPointVector t = true <->
  exists n, (n = 2 \/ n = 3) /\ t = arrow.FixedSizeList n arrow.Float.
Proof.
  split.
  - destruct t as [| | | | | |  |n c|]; try discriminate. cbn [isPointVector].
    destruct (decide (n = 2)) as [->|H2]; [|destruct (decide (n = 3)) as [->|H3]].
    + destruct c; try discriminate. intros _. exists 2. auto.
    + destruct c; try discriminate. intros _. exists 3. auto.
    + rewrite !bool_decide_eq_true_2 by assumption. discriminate.
  - intros (n & [-> | ->] & ->); reflexivity.
Qed.

Lemma list_classifier_shape (inner : arrow.DataType -> bool) t :
  (match t with
   | arrow.List child => if negb (inner child) then false else true
   | _ => false
   end) = true <->
  exists child, t = arrow.List child /\ inner child = true.
Proof.
  split.
  - destruct t as [| | | | |c| | |]; try discriminate.
    destruct (inner c) eqn:E; [|discriminate]. intros _. exists c. auto.
  - intros (c & -> & ->). reflexivity.
Qed.

(** X1: The six classifiers accept exactly these types: a point is a
    fixed-size list of 2 or 3 floats; line strings and multi-points are
    lists of points; polygons and multi-line-strings are lists of lists of
    points; multi-polygons are lists of lists of lists of points. *)
Theorem classifiers_accept_exact_shapes t :
  let point p := exists n, (n = 2 \/ n = 3) /\ p = arrow.FixedSizeList n arrow.Float in
  (isPointVector t = true <-> point t) /\
  (isLineStringVector t = true <-> exists p, point p /\ t = arrow.List p) /\
  (isMultiPointVector t = true <-> exists p, point p /\ t = arrow.List p) /\
  (isPolygonVector t = true <-> exists p, point p /\ t = arrow.List (arrow.List p)) /\
  (isMultiLineStringVector t = true <->
     exists p, point p /\ t = arrow.List (arrow.List p)) /\
  (isMultiPolygonVector t = true <->
     exists p, point p /\ t = arrow.List (arrow.List (arrow.List p))).
Proof.
  intros point.
  assert (Hline : forall u, isLineStringVector u = true <->
                            exists p, point p /\ u = arrow.List p).
  { intros u. unfold isLineStringVector. rewrite list_classifier_shape. split.
    - intros (c & -> & Hc%isPointVector_shape). eauto.
    - intros (p & Hp%isPointVector_shape & ->). eauto. }
  assert (Hpoly : forall u, isPolygonVector u = true <->
                            exists p, point p /\ u = arrow.List (arrow.List p)).
  { intros u. unfold isPolygonVector. rewrite list_classifier_shape. split.
    - intros (c & -> & (p & Hp & ->)%Hline). eauto.
    - intros (p & Hp & ->). eexists. split; [reflexivity|]. apply Hline. eauto. }
  split; [apply isPointVector_shape|]. split; [apply Hline|]. split; [apply Hline|].
  split; [apply Hpoly|]. split; [apply Hpoly|].
  unfold isMultiPolygonVector. rewrite list_classifier_shape. split.
  - intros (c & -> & (p & Hp & ->)%Hpoly). eauto.
  - intros (p & Hp & ->). eexists. split; [reflexivity|]. apply Hpoly. eauto.
Qed.

(** X2: No type is accepted by two of the classifiers of points, line
    strings, polygons and multi-polygons. *)
Theorem classifiers_exclusive t :
  (isPointVector t = true -> isLineStringVector t = false /\
                             isPolygonVector t = false /\
                             isMultiPolygonVector t = false) /\
  (isLineStringVector t = true -> isPolygonVector t = false /\
                                  isMultiPolygonVector t = false) /\
  (isPolygonVector t = true -> isMultiPolygonVector t = false).
Proof.
  destruct (classifiers_accept_exact_shapes t) as (Hpt & Hls & _ & Hpg & _ & Hmp).
  cbv zeta in *.
  assert (Hno : forall b : bool, (b = true -> False) -> b = false).
  { intros [|] H; [destruct (H eq_refl)|reflexivity]. }
  split; [|split].
  - intros (n & _ & ->)%Hpt. repeat split; reflexivity.
  - intros (p & (n & _ & ->) & ->)%Hls. split; apply Hno.
    + intros (q & _ & [=])%Hpg.
    + intros (q & _ & [=])%Hmp.
  - intros (p & (n & _ & ->) & ->)%Hpg. apply Hno.
    intros (q & _ & [=])%Hmp.
Qed.

Lemma classifiers_exclusive_witness :
  isPolygonVector (arrow.type Sample.polygonData) = true /\
  isMultiPolygonVector (arrow.type Sample.polygonData) = false.
Proof.
  split; [reflexivity|].
  exact (proj2 (proj2 (classifiers_exclusive (arrow.type Sample.polygonData)))
           eq_refl).
Defined.

(** ** Finding the geometry column *)

Lemma findIndex_from_spec {T} (p : T -> bool) (l : list T) (i : Z) :
  0 <= i ->
  (findIndex_from p l i = -1 /\ forall x, x ∈ l -> p x = false) \/
  (exists k x, findIndex_from p l i = i + Z.of_nat k /\ l !! k = Some x /\
               p x = true /\
               forall j y, (j < k)%nat -> l !! j = Some y -> p y = false).
Proof.
  revert i. induction l as [|x l IH]; intros i Hi.
  - left. split; [reflexivity|]. intros x Hx. inversion Hx.
  - cbn [findIndex_from]. destruct (p x) eqn:Hpx.
    + right. exists O, x. split; [lia|]. split; [reflexivity|]. split; [assumption|].
      intros j y Hj. lia.
    + destruct (IH (i + 1) ltac:(lia)) as [[Hnone Hall]|(k & y & Hk & Hy & Hpy & Hmin)].
      * left. split; [assumption|]. intros z Hz. inversion Hz; subst; auto.
      * right. exists (Datatypes.S k), y. split; [lia|]. split; [assumption|].
        split; [assumption|]. intros [|j] z Hj Hz.
        -- simpl in Hz. congruence.
        -- apply (Hmin j z); [lia|assumption].
Qed.

(** X3: [findGeometryColumnIndex] returns the index of the first field whose
    name is the given column name or whose extension name is the given
    one, whichever comes first in the schema, and null exactly when no
    field is either. *)
Theorem findGeometryColumnIndex_first_match (fields : list Field) ext nm :
  match findGeometryColumnIndex fields ext nm with
  | Some i =>
      exists f, JS.get fields i = Some f /\
        (Some (name f) = nm \/
         metadata f !! "ARROW:extension:name"%string = Some ext) /\
        forall j g, 0 <= j < i -> JS.get fields j = Some g ->
          Some (name g) <> nm /\
          metadata g !! "ARROW:extension:name"%string <> Some ext
  | None =>
      forall g, g ∈ fields ->
        Some (name g) <> nm /\
        metadata g !! "ARROW:extension:name"%string <> Some ext
  end.
Proof.
  assert (Hyes : forall f, is_geometry_field ext nm f = true ->
            Some (name f) = nm \/
            metadata f !! "ARROW:extension:name"%string = Some ext).
  { intros f. unfold is_geometry_field. rewrite orb_true_iff.
    rewrite !bool_decide_eq_true. auto. }
  assert (Hno : forall f, is_geometry_field ext nm f = false ->
            Some (name f) <> nm /\
            metadata f !! "ARROW:extension:name"%string <> Some ext).
  { intros f. unfold is_geometry_field. rewrite orb_false_iff.
    rewrite !bool_decide_eq_false. auto. }
  unfold findGeometryColumnIndex, findIndex.
  destruct (findIndex_from_spec (is_geometry_field ext nm) fields 0 ltac:(lia))
    as [[Hnone Hall]|(k & f & Hk & Hf & Hpf & Hmin)].
  - rewrite Hnone. rewrite bool_decide_eq_false_2 by lia. intros g Hg. auto.
  - rewrite Hk. rewrite bool_decide_eq_true_2 by lia.
    exists f. split; [|split].
    + unfold JS.get. case_decide; [|lia].
      now replace (Z.to_nat (0 + Z.of_nat k)) with k by lia.
    + auto.
    + intros j g Hj Hg. apply Hno. unfold JS.get in Hg. case_decide; [|lia].
      apply (Hmin (Z.to_nat j)); [lia|assumption].
Qed.

(** X4: [getGeometryVector] looks a column up by its extension name alone: it
    returns the column at the first field tagged with the extension,
    whatever the fields are called, and null when no field is tagged. *)
Theorem getGeometryVector_by_extension {Vec} (table : TableColumns Vec) ext :
  (forall i f,
      JS.get (schema_fields table) i = Some f ->
      metadata f !! "ARROW:extension:name"%string = Some ext ->
      (forall j g, 0 <= j < i -> JS.get (schema_fields table) j = Some g ->
                   metadata g !! "ARROW:extension:name"%string <> Some ext) ->
      getGeometryVector table ext = JS.get (columns table) i) /\
  ((forall g, g ∈ schema_fields table ->
              metadata g !! "ARROW:extension:name"%string <> Some ext) ->
   getGeometryVector table ext = None).
Proof.
  unfold getGeometryVector.
  pose proof (findGeometryColumnIndex_first_match (schema_fields table) ext None) as H.
  destruct (findGeometryColumnIndex (schema_fields table) ext None) as [k|].
  - destruct H as (f' & Hf' & Hmatch & Hmin). split.
    + intros i f Hf Htag Hfirst. f_equal.
      destruct Hmatch as [Hname|Htag']; [discriminate|].
      pose proof (get_Some_range _ _ _ Hf). pose proof (get_Some_range _ _ _ Hf').
      destruct (Z.lt_trichotomy i k) as [Hlt|[Heq|Hgt]]; [|congruence|].
      * destruct (Hmin i f ltac:(lia) Hf) as [_ Hcontra]. contradiction.
      * destruct (Hfirst k f' ltac:(lia) Hf'). assumption.
    + intros Hnone. exfalso.
      destruct Hmatch as [Hname|Htag]; [discriminate|].
      apply (Hnone f'); [|assumption].
      unfold JS.get in Hf'. case_decide; [|discriminate].
      apply list_elem_of_lookup. eauto.
  - split; [|reflexivity]. intros i f Hf Htag _. exfalso.
    apply (proj2 (H f ltac:(unfold JS.get in Hf; case_decide; [|discriminate];
                            apply list_elem_of_lookup; eauto))).
    assumption.
Qed.

Lemma getGeometryVector_by_extension_witness :
  getGeometryVector
    (mkTableColumns
       [mkField "geoarrow.polygon" ∅;
        mkField "geometry" (<["ARROW:extension:name" := "geoarrow.polygon"]> ∅)]
       [10; 20])
    "geoarrow.polygon"
  = Some 20.
Proof.
  rewrite (proj1 (getGeometryVector_by_extension
                    (mkTableColumns
                       [mkField "geoarrow.polygon" ∅;
                        mkField "geometry"
                          (<["ARROW:extension:name" := "geoarrow.polygon"]> ∅)]
                       [10; 20])
                    "geoarrow.polygon") 1
             (mkField "geometry" (<["ARROW:extension:name" := "geoarrow.polygon"]> ∅))
             eq_refl (lookup_insert_eq _ _ _)).
  - reflexivity.
  - intros j g Hj Hg. assert (j = 0) by lia. subst j.
    unfold JS.get in Hg. simpl in Hg. injection Hg as <-.
    cbn [metadata]. rewrite lookup_empty. discriminate.
Defined.

(** ** Splitting props into accessors and other props *)

Lemma foldl_snoc {S T} (f : S -> T -> S) (a : S) (l : list T) (x : T) :
  foldl f a (l ++ [x]) = f (foldl f a l) x.
Proof. revert a. induction l as [|y l IH]; intros a; [reflexivity|]. apply IH. Qed.

(** X5: Over the entries of an object, whose keys are distinct,
    [extractAccessorsFromProps] returns in its first component exactly
    the entries whose key is not excluded and starts with "get", and in
    its second component exactly the entries whose key is not excluded and
    does not start with "get". *)
Theorem extractAccessorsFromProps_split {V} (props : list (string * V))
  (excludeKeys : list string) :
  NoDup props.*1 ->
  forall key value,
    (((extractAccessorsFromProps props excludeKeys).1) !! key = Some value <->
     (key, value) ∈ props /\ (key ∉ excludeKeys) /\ String.prefix "get" key = true) /\
    (((extractAccessorsFromProps props excludeKeys).2) !! key = Some value <->
     (key, value) ∈ props /\ (key ∉ excludeKeys) /\ String.prefix "get" key = false).
Proof.
  unfold extractAccessorsFromProps.
  induction props as [|[k0 v0] props IH] using rev_ind; intros Hnodup key value.
  - cbn [foldl fst snd]. rewrite !lookup_empty. split; split.
    + discriminate.
    + intros [H _]. inversion H.
    + discriminate.
    + intros [H _]. inversion H.
  - rewrite fmap_app in Hnodup. apply NoDup_app in Hnodup as (Hnd & Hfresh & _).
    specialize (IH Hnd).
    assert (Hk0 : forall v, (k0, v) ∉ props).
    { intros v Hv. apply (Hfresh k0).
      - apply list_elem_of_fmap. exists (k0, v). auto.
      - cbn. apply list_elem_of_here. }
    rewrite foldl_snoc.
    destruct (foldl (extractAccessors_step excludeKeys) (∅, ∅) props)
      as [accessors otherProps] eqn:Efold.
    cbn [fst snd] in IH. unfold extractAccessors_step.
    assert (Hin : forall k v, (k, v) ∈ props ++ [(k0, v0)] <->
                              (k, v) ∈ props \/ (k = k0 /\ v = v0)).
    { intros k v. rewrite elem_of_app, list_elem_of_singleton.
      split; (intros [H|H]; [left; exact H|right]); [now inversion H|].
      destruct H as [-> ->]. reflexivity. }
    destruct (IH key value) as [IHa IHo].
    case_bool_decide as Hex; [|destruct (String.prefix "get" k0) eqn:Hget];
      cbn [fst snd]; rewrite !Hin.
    + rewrite IHa, IHo. split; split; try tauto.
      * intros [[H|[-> ->]] [Hn Hp]]; [tauto|contradiction].
      * intros [[H|[-> ->]] [Hn Hp]]; [tauto|contradiction].
    + destruct (decide (key = k0)) as [->|Hne].
      * rewrite lookup_insert_eq. split; split.
        -- intros [= ->]. tauto.
        -- intros [[H|[_ ->]] _]; [destruct (Hk0 _ H)|reflexivity].
        -- intros H%IHo. destruct H as [H _]. destruct (Hk0 _ H).
        -- intros [[H|[_ ->]] [_ Hp]]; [destruct (Hk0 _ H)|congruence].
      * rewrite lookup_insert_ne by congruence. rewrite IHa, IHo.
        split; split; try tauto; intros [[H|[-> ->]] H']; tauto.
    + destruct (decide (key = k0)) as [->|Hne].
      * rewrite lookup_insert_eq. split; split.
        -- intros H%IHa. destruct H as [H _]. destruct (Hk0 _ H).
        -- intros [[H|[_ ->]] [_ Hp]]; [destruct (Hk0 _ H)|congruence].
        -- intros [= ->]. tauto.
        -- intros [[H|[_ ->]] _]; [destruct (Hk0 _ H)|reflexivity].
      * rewrite lookup_insert_ne by congruence. rewrite IHa, IHo.
        split; split; try tauto; intros [[H|[-> ->]] H']; tauto.
Qed.

Lemma extractAccessorsFromProps_split_witness :
  ((extractAccessorsFromProps
     [("id", 1); ("getFillColor", 2); ("data", 3); ("getPolygon", 4)]
     ["getPolygon"; "data"]).1) !! "getFillColor"%string = Some 2.
Proof.
  apply (extractAccessorsFromProps_split
           [("id"%string, 1); ("getFillColor"%string, 2); ("data"%string, 3);
            ("getPolygon"%string, 4)]
           ["getPolygon"%string; "data"%string]).
  - cbn. repeat constructor; rewrite ?elem_of_cons, ?elem_of_nil;
      intros H; repeat (destruct H as [H|H]; [discriminate|]); exact H.
  - split; [|split].
    + rewrite !elem_of_cons. auto.
    + rewrite !elem_of_cons, elem_of_nil.
      intros H; repeat (destruct H as [H|H]; [discriminate|]); exact H.
    + reflexivity.
Defined.

(** ** Outcomes on arbitrary offsets: results, lengths and errors *)

Lemma for_loop_preserves {S} (P : S -> Prop) lo hi (body : Z -> S -> S) s :
  P s -> (forall k t, P t -> P (body k t)) -> P (JS.for_loop lo hi body s).
Proof.
  intros Hs Hbody. destruct (decide (lo <= hi)) as [Hle|Hgt].
  - apply (for_loop_ind (fun _ t => P t)); auto.
  - now rewrite for_loop_empty by lia.
Qed.

Lemma invertOffsets_step_len C offsets g (s : list Z) :
  JS.len (invertOffsets_step C offsets g s) = JS.len s.
Proof.
  unfold invertOffsets_step.
  destruct (JS.get offsets g); [|reflexivity].
  destruct (JS.get offsets (g + 1)); [|reflexivity].
  apply (for_loop_preserves (fun t => JS.len t = JS.len s)); [reflexivity|].
  intros k t Ht. now rewrite len_set.
Qed.

(** X6: Whatever the offsets are, [invertOffsets] has one of three outcomes,
    decided by the last offset: on an empty array it returns an empty
    [Uint8Array]; on a negative last offset it raises [RangeError]; else
    it returns an array with as many elements as the last offset says. *)
Theorem invertOffsets_outcome (offsets : list Z) :
  match JS.get offsets (JS.len offsets - 1) with
  | None => offsets = [] /\ invertOffsets offsets = Normal (mkTypedArray Uint8Array [])
  | Some last =>
      if decide (last < 0) then invertOffsets offsets = Throw JS.RangeError
      else exists out, invertOffsets offsets = Normal out /\
                       ctor out = invertOffsets_arrayConstructor offsets /\
                       JS.len (elems out) = last
  end.
Proof.
  destruct (JS.get offsets (JS.len offsets - 1)) as [last|] eqn:Hlast.
  - unfold invertOffsets. rewrite Hlast. unfold new_TypedArray.
    case_decide; [reflexivity|].
    cbn [mbind JS.Completion_bind mret JS.Completion_ret elems].
    eexists. split; [reflexivity|]. split; [reflexivity|]. cbn [elems].
    apply (for_loop_preserves (fun t => JS.len t = last)).
    + apply len_replicate. lia.
    + intros k t Ht. now rewrite invertOffsets_step_len.
  - assert (offsets = []) as ->.
    { destruct offsets as [|x l]; [reflexivity|]. exfalso.
      destruct (get_in_range (x :: l) (JS.len (x :: l) - 1)) as [v Hv];
        [unfold JS.len; simpl; lia|congruence]. }
    split; reflexivity.
Qed.



Lemma encodePickingColors_step_len offsets enc g (st : list Z * list Z) :
  JS.len (snd (encodePickingColors_step offsets enc g st)) = JS.len (snd st).
Proof.
  destruct st as [color buf]. unfold encodePickingColors_step.
  destruct (JS.get offsets g); [|reflexivity].
  destruct (JS.get offsets (g + 1)); [|reflexivity]. cbn [snd].
  apply (for_loop_preserves (fun t => JS.len t = JS.len buf)); [reflexivity|].
  intros k t Ht. now rewrite write_color_len.
Qed.

(** X8: Whatever the offsets and the callback are, [encodePickingColors]
    returns a [Uint8ClampedArray] with as many bytes as the last offset
    says, one byte and not three for each coordinate; it returns an empty
    buffer on empty offsets, and raises [RangeError] on a negative last
    offset. *)
Theorem encodePickingColors_outcome (offsets : list Z) (enc : Z -> list Z -> list Z) :
  match JS.get offsets (JS.len offsets - 1) with
  | None =>
      offsets = [] /\
      encodePickingColors offsets enc = Normal (mkTypedArray Uint8ClampedArray [])
  | Some last =>
      if decide (last < 0) then encodePickingColors offsets enc = Throw JS.RangeError
      else exists out, encodePickingColors offsets enc = Normal out /\
                       ctor out = Uint8ClampedArray /\
                       JS.len (elems out) = last
  end.
Proof.
  destruct (JS.get offsets (JS.len offsets - 1)) as [last|] eqn:Hlast.
  - unfold encodePickingColors. rewrite Hlast. unfold new_TypedArray.
    case_decide; [reflexivity|].
    cbn [mbind JS.Completion_bind mret JS.Completion_ret elems].
    eexists. split; [reflexivity|]. split; [reflexivity|]. cbn [elems].
    apply (for_loop_preserves (fun st : list Z * list Z => JS.len (snd st) = last)).
    + apply len_replicate. lia.
    + intros k t Ht. now rewrite encodePickingColors_step_len.
  - assert (offsets = []) as ->.
    { destruct offsets as [|x l]; [reflexivity|]. exfalso.
      destruct (get_in_range (x :: l) (JS.len (x :: l) - 1)) as [v Hv];
        [unfold JS.len; simpl; lia|congruence]. }
    split; reflexivity.
Qed.

(** ** The broadcaster without its precondition, and against the inverter *)

(** The run of [expandArrayToCoords] on well-formed offsets, whatever the
    length of the input is. *)
Lemma expandArrayToCoords_run {A} (zero : A) (su : TypedArrayKind -> A)
  (input : TypedArray A) (size : Z) (R : list Z) last :
  1 <= size -> well_formed R -> JS.get R (JS.len R - 1) = Some last ->
  exists final,
    expandArrayToCoords zero su input size R
    = Normal (mkTypedArray (ctor input) final) /\
    JS.len final = last * size /\
    forall g lo hi c i,
      JS.get R g = Some lo -> JS.get R (g + 1) = Some hi ->
      lo <= c < hi -> 0 <= i < size ->
      JS.get final (c * size + i) = Some (read_for_store su input (g * size + i)).
Proof.
  intros Hsize HR Hlast. destruct (well_formed_last R HR) as (last' & Hlast' & Hpos).
  assert (last' = last) by congruence. subst last'.
  unfold expandArrayToCoords. rewrite Hlast. cbn [fmap option_fmap option_map].
  unfold new_TypedArray. case_decide; [nia|].
  cbn [mbind JS.Completion_bind mret JS.Completion_ret elems ctor].
  eexists. split; [reflexivity|].
  enough (G : JS.len (JS.for_loop 0 (JS.len R - 1) (expand_geom su input size R)
                        (replicate (Z.to_nat (last * size)) zero))
              = last * size /\
              forall g lo hi c,
                JS.get R g = Some lo -> JS.get R (g + 1) = Some hi -> lo <= c < hi ->
                forall i, 0 <= i < size ->
                  JS.get (JS.for_loop 0 (JS.len R - 1) (expand_geom su input size R)
                            (replicate (Z.to_nat (last * size)) zero))
                    (c * size + i)
                  = Some (read_for_store su input (g * size + i))).
  { destruct G as [G1 G2]. split; [exact G1|]. intros g lo hi c i Hlo Hhi Hc Hi.
    exact (G2 g lo hi c Hlo Hhi Hc i Hi). }
  apply (offsets_fill
           (expand_coord su input size)
           (fun s => JS.len s = last * size)
           (fun c => 0 <= c < last)
           (fun g c s => forall i, 0 <= i < size ->
              JS.get s (c * size + i) = Some (read_for_store su input (g * size + i)))).
  - intros g c s Hs. now rewrite expand_coord_len.
  - intros g c s Hs Hc i Hi. apply expand_coord_writes; [assumption|lia|nia|lia].
  - intros g c g' c' s Hne HQ i Hi.
    rewrite expand_coord_other by (try assumption; nia). now apply HQ.
  - reflexivity.
  - apply HR.
  - intros g lo hi c Hlo Hhi Hc. apply (well_formed_range R g lo hi c last); assumption.
  - apply len_replicate. nia.
Qed.



Lemma get_seqZ (n i : Z) : 0 <= i < n -> JS.get (seqZ 0 n) i = Some i.
Proof.
  intros Hi. unfold JS.get. case_decide; [|lia].
  rewrite lookup_seqZ_lt by lia. f_equal. lia.
Qed.

Lemma get_ext {A} (l1 l2 : list A) :
  JS.len l1 = JS.len l2 ->
  (forall p, 0 <= p < JS.len l1 -> JS.get l1 p = JS.get l2 p) -> l1 = l2.
Proof.
  intros Hlen Hget. apply list_eq. intros n.
  destruct (decide (Z.of_nat n < JS.len l1)) as [Hn|Hn].
  - specialize (Hget (Z.of_nat n) ltac:(lia)). unfold JS.get in Hget.
    case_decide; [|lia]. now rewrite Nat2Z.id in Hget.
  - rewrite !lookup_ge_None_2; [reflexivity|unfold JS.len in *; lia..].
Qed.

(** X10: Inverting offsets is broadcasting the item indices: on well-formed
    offsets, [invertOffsets] returns the array that [expandArrayToCoords]
    returns on the input [[0, 1, ..., n - 1]] of size 1. *)
Theorem invertOffsets_is_broadcast_of_indices (O : list Z) :
  well_formed O -> JS.len O <= 2 ^ 32 ->
  exists inverted,
    invertOffsets O = Normal inverted /\
    expandArrayToCoords 0 (fun _ => 0)
      (mkTypedArray (ctor inverted) (seqZ 0 (JS.len O - 1))) 1 O
    = Normal inverted.
Proof.
  intros HO Hlen. destruct (well_formed_last O HO) as (last & Hlast & Hpos).
  destruct (invertOffsets_run O last HO Hlast) as (inv & Hinv & Hinvlen & Hinvfill).
  destruct (expandArrayToCoords_run 0 (fun _ => 0)
              (mkTypedArray (invertOffsets_arrayConstructor O) (seqZ 0 (JS.len O - 1)))
              1 O last ltac:(lia) HO Hlast) as (out & Hout & Houtlen & Houtfill).
  eexists. split; [exact Hinv|]. cbn [ctor]. rewrite Hout. cbn [ctor].
  do 2 f_equal. apply get_ext; [lia|]. intros p Hp.
  destruct (well_formed_covers O p last HO Hlast ltac:(lia))
    as (g & lo & hi & Hlo & Hhi & Hin).
  pose proof (get_Some_range _ _ _ Hlo). pose proof (get_Some_range _ _ _ Hhi).
  rewrite (Hinvfill g lo hi p Hlo Hhi Hin).
  rewrite invertOffsets_index_fits by lia.
  pose proof (Houtfill g lo hi p 0 Hlo Hhi Hin ltac:(lia)) as Hq.
  replace (p * 1 + 0) with p in Hq by lia. rewrite Hq. f_equal.
  unfold read_for_store. cbn [elems]. replace (g * 1 + 0) with g by lia.
  now rewrite get_seqZ by lia.
Qed.

Lemma invertOffsets_is_broadcast_of_indices_witness :
  exists inverted,
    invertOffsets [0; 2; 5] = Normal inverted /\
    expandArrayToCoords 0 (fun _ => 0) (mkTypedArray (ctor inverted) [0; 1]) 1 [0; 2; 5]
    = Normal inverted.
Proof.
  apply (invertOffsets_is_broadcast_of_indices [0; 2; 5]).
  - split; [reflexivity|]. simpl. lia.
  - vm_compute. discriminate.
Defined.

(** X11: The broadcaster gathers through the inverter: under the precondition
    of the broadcaster, every coordinate [c] below the last offset has an
    entry [g] in the inverted offsets, and channel [i] of [c] in the
    expanded array is channel [i] of geometry [g] in the input. No slot of
    the expanded array is left unwritten. *)
Theorem expandArrayToCoords_gathers {A} (zero : A) (su : TypedArrayKind -> A)
  (input : TypedArray A) (size : Z) (R : list Z) :
  1 <= size -> well_formed R -> JS.len R <= 2 ^ 32 ->
  JS.len (elems input) = size * (JS.len R - 1) ->
  exists out inverted last,
    JS.get R (JS.len R - 1) = Some last /\
    expandArrayToCoords zero su input size R = Normal out /\
    invertOffsets R = Normal inverted /\
    forall c i, 0 <= c < last -> 0 <= i < size ->
      exists g v,
        JS.get (elems inverted) c = Some g /\
        JS.get (elems input) (g * size + i) = Some v /\
        JS.get (elems out) (c * size + i) = Some v.
Proof.
  intros Hsize HR Hlen Hpre. destruct (well_formed_last R HR) as (last & Hlast & Hpos).
  destruct (invertOffsets_run R last HR Hlast) as (inv & Hinv & Hinvlen & Hinvfill).
  destruct (expandArrayToCoords_run zero su input size R last Hsize HR Hlast)
    as (final & Hrun & Hfinlen & Hfill).
  eexists. eexists. exists last. split; [assumption|]. split; [exact Hrun|].
  split; [exact Hinv|]. cbn [elems]. intros c i Hc Hi.
  destruct (well_formed_covers R c last HR Hlast Hc) as (g & lo & hi & Hlo & Hhi & Hin).
  pose proof (get_Some_range _ _ _ Hlo). pose proof (get_Some_range _ _ _ Hhi).
  destruct (get_in_range (elems input) (g * size + i)) as [v Hv]; [nia|].
  exists g, v. split; [|split; [assumption|]].
  - rewrite (Hinvfill g lo hi c Hlo Hhi Hin). f_equal.
    apply invertOffsets_index_fits; lia.
  - rewrite (Hfill g lo hi c i Hlo Hhi Hin Hi). unfold read_for_store.
    now rewrite Hv.
Qed.

Lemma expandArrayToCoords_gathers_witness :
  exists out inverted,
    expandArrayToCoords 0 (fun _ => 0) (mkTypedArray Uint8Array [10; 20]) 1 [0; 2; 5]
    = Normal out /\
    invertOffsets [0; 2; 5] = Normal inverted /\
    JS.get (elems inverted) 3 = Some 1 /\ JS.get (elems out) 3 = Some 20.
Proof.
  destruct (expandArrayToCoords_gathers 0 (fun _ => 0)
              (mkTypedArray Uint8Array [10; 20]) 1 [0; 2; 5] ltac:(lia))
    as (out & inverted & last & Hlast & Hout & Hinv & Hgather).
  - split; [reflexivity|]. simpl. lia.
  - vm_compute. discriminate.
  - reflexivity.
  - exists out, inverted. split; [exact Hout|]. split; [exact Hinv|].
    assert (last = 5) by (vm_compute in Hlast; congruence). subst last.
    destruct (Hgather 3 0 ltac:(lia) ltac:(lia)) as (g & v & Hg & Hv & Hc).
    clear Hgather.
    vm_compute in Hinv. injection Hinv as <-. cbn [elems] in Hg.
    vm_compute in Hg. injection Hg as <-. vm_compute in Hv. injection Hv as <-.
    split; [reflexivity|]. exact Hc.
Defined.

(** X12: On well-formed offsets the inverted offsets do not decrease: the
    rendered parts are numbered in the order of their source items. *)
Theorem invertOffsets_non_decreasing (O : list Z) :
  well_formed O -> JS.len O <= 2 ^ 32 ->
  exists out, invertOffsets O = Normal out /\ non_decreasing (elems out).
Proof.
  intros HO Hlen. destruct (well_formed_last O HO) as (last & Hlast & Hpos).
  destruct (invertOffsets_run O last HO Hlast) as (inv & Hinv & Hinvlen & Hinvfill).
  eexists. split; [exact Hinv|]. cbn [elems].
  apply non_decreasing_intro. intros n a b Ha Hb.
  assert (Hn : Z.of_nat n + 1 < last).
  { apply lookup_lt_Some in Hb. unfold JS.len in Hinvlen. lia. }
  assert (Hga : JS.get inv (Z.of_nat n) = Some a).
  { unfold JS.get. case_decide; [|lia]. now rewrite Nat2Z.id. }
  assert (Hgb : JS.get inv (Z.of_nat n + 1) = Some b).
  { unfold JS.get. case_decide; [|lia].
    now replace (Z.to_nat (Z.of_nat n + 1)) with (Datatypes.S n) by lia. }
  destruct (well_formed_covers O (Z.of_nat n) last HO Hlast ltac:(lia))
    as (g & lo & hi & Hlo & Hhi & Hin).
  destruct (well_formed_covers O (Z.of_nat n + 1) last HO Hlast ltac:(lia))
    as (g' & lo' & hi' & Hlo' & Hhi' & Hin').
  pose proof (get_Some_range _ _ _ Hlo). pose proof (get_Some_range _ _ _ Hhi).
  pose proof (get_Some_range _ _ _ Hlo'). pose proof (get_Some_range _ _ _ Hhi').
  rewrite (Hinvfill g lo hi _ Hlo Hhi Hin) in Hga.
  rewrite (Hinvfill g' lo' hi' _ Hlo' Hhi' Hin') in Hgb.
  rewrite invertOffsets_index_fits in Hga, Hgb by lia.
  assert (a = g) by congruence. assert (b = g') by congruence. subst a b.
  destruct (decide (g <= g')) as [Hle|Hgt]; [assumption|exfalso].
  pose proof (non_decreasing_get O (g' + 1) g hi' lo (proj2 HO) ltac:(lia) Hhi' Hlo).
  lia.
Qed.

Lemma invertOffsets_non_decreasing_witness :
  exists out, invertOffsets [0; 2; 2; 5] = Normal out /\ non_decreasing (elems out).
Proof.
  apply (invertOffsets_non_decreasing [0; 2; 2; 5]).
  - split; [reflexivity|]. simpl. lia.
  - vm_compute. discriminate.
Defined.

(** ** The resolvers: missing children, broken chains, composition *)

Section ResolverOutcomes.
Context {A : Type}.
Implicit Types data polygonData ringData : arrow.Data A.

(** X13: [getPolygonResolvedOffsets] raises [TypeError] on data without a
    child and nothing else. On data with a child it returns an array as
    long as the offsets of the data, whatever the two offsets arrays hold:
    an entry that is a position of the child's offsets resolves to the
    offset there, wrapped to 32 bits, and an entry that is not resolves
    to 0. *)
Theorem getPolygonResolvedOffsets_outcome data :
  match JS.get (arrow.children data) 0 with
  | None => getPolygonResolvedOffsets data = Throw JS.TypeError
  | Some ringData =>
      exists R,
        getPolygonResolvedOffsets data = Normal R /\
        JS.len R = JS.len (arrow.valueOffsets data) /\
        forall i a, JS.get (arrow.valueOffsets data) i = Some a ->
          (forall v, JS.get (arrow.valueOffsets ringData) a = Some v ->
                     JS.get R i = Some (wrap_signed 32 v)) /\
          (~ (0 <= a < JS.len (arrow.valueOffsets ringData)) -> JS.get R i = Some 0)
  end.
Proof.
  destruct (JS.get (arrow.children data) 0) as [ringData|] eqn:Hchild.
  - destruct (resolved_array (arrow.valueOffsets data)
                (lookup_through (arrow.valueOffsets data) (arrow.valueOffsets ringData)))
      as (R & Hrun & Hlen & Hget).
    exists R. unfold getPolygonResolvedOffsets, getPolygonChild.
    rewrite (child0_Some _ _ Hchild). cbn [mbind JS.Completion_bind].
    split; [assumption|]. split; [assumption|]. intros i a Ha.
    rewrite (Hget i (get_Some_range _ _ _ Ha)). unfold lookup_through. rewrite Ha.
    cbn [mbind option_bind]. split.
    + intros v ->. reflexivity.
    + intros Hout. now rewrite get_out_of_range.
  - unfold getPolygonResolvedOffsets, getPolygonChild, child0. now rewrite Hchild.
Qed.

Lemma two_levels_well_formed data ringData :
  JS.get (arrow.children data) 0 = Some ringData ->
  indexes_into (arrow.valueOffsets data) (arrow.valueOffsets ringData) ->
  Int32Array_ok (arrow.valueOffsets ringData) ->
  well_formed (arrow.valueOffsets data) ->
  well_formed (arrow.valueOffsets ringData) ->
  exists R,
    getPolygonResolvedOffsets data = Normal R /\ well_formed R /\
    JS.len R = JS.len (arrow.valueOffsets data) /\
    forall i, 0 <= i < JS.len (arrow.valueOffsets data) ->
      exists a v,
        JS.get (arrow.valueOffsets data) i = Some a /\
        JS.get (arrow.valueOffsets ringData) a = Some v /\
        JS.get R i = Some v.
Proof.
  intros Hc Hchain Hint H1 H2.
  destruct (resolved_two_levels data ringData Hc Hchain Hint)
    as (R & Hrun & _ & Hlen & Hget).
  exists R. split; [assumption|]. split; [|split; assumption].
  apply (resolved_well_formed (arrow.valueOffsets data) R
           (JS.get (arrow.valueOffsets ringData))); try assumption.
  - intros a b u v Hab Hu Hv.
    exact (non_decreasing_get _ a b u v (proj2 H2) Hab Hu Hv).
  - intros v Hv. destruct H2 as [H2 _]. congruence.
Qed.

Lemma three_levels_well_formed data polygonData ringData :
  JS.get (arrow.children data) 0 = Some polygonData ->
  JS.get (arrow.children polygonData) 0 = Some ringData ->
  indexes_into (arrow.valueOffsets data) (arrow.valueOffsets polygonData) ->
  indexes_into (arrow.valueOffsets polygonData) (arrow.valueOffsets ringData) ->
  Int32Array_ok (arrow.valueOffsets ringData) ->
  well_formed (arrow.valueOffsets data) ->
  well_formed (arrow.valueOffsets polygonData) ->
  well_formed (arrow.valueOffsets ringData) ->
  exists R,
    getMultiPolygonResolvedOffsets data = Normal R /\ well_formed R /\
    JS.len R = JS.len (arrow.valueOffsets data) /\
    forall i, 0 <= i < JS.len (arrow.valueOffsets data) ->
      exists a b v,
        JS.get (arrow.valueOffsets data) i = Some a /\
        JS.get (arrow.valueOffsets polygonData) a = Some b /\
        JS.get (arrow.valueOffsets ringData) b = Some v /\
        JS.get R i = Some v.
Proof.
  intros Hc1 Hc2 Hchain1 Hchain2 Hint H1 H2 H3.
  destruct (resolved_three_levels data polygonData ringData Hc1 Hc2 Hchain1 Hchain2 Hint)
    as (R & Hrun & Hlen & Hget).
  exists R. split; [assumption|]. split; [|split; assumption].
  apply (resolved_well_formed (arrow.valueOffsets data) R
           (fun a => b ← JS.get (arrow.valueOffsets polygonData) a;
                     JS.get (arrow.valueOffsets ringData) b)); try assumption.
  - intros i Hi. destruct (Hget i Hi) as (a & b & v & Ha & Hb & Hv & HR).
    exists a, v. split; [assumption|]. split; [|assumption].
    rewrite Hb. exact Hv.
  - intros a b u v Hab Hu Hv.
    destruct (JS.get (arrow.valueOffsets polygonData) a) as [a'|] eqn:Ea; [|discriminate].
    destruct (JS.get (arrow.valueOffsets polygonData) b) as [b'|] eqn:Eb; [|discriminate].
    cbn [mbind option_bind] in Hu, Hv.
    apply (non_decreasing_get _ a' b' u v (proj2 H3)); try assumption.
    exact (non_decreasing_get _ a b a' b' (proj2 H2) Hab Ea Eb).
  - intros v Hv. destruct H2 as [H2 _], H3 as [H3 _]. rewrite H2 in Hv.
    cbn [mbind option_bind] in Hv. congruence.
Qed.

(** X14: The two resolutions of a multi-polygon chunk agree: the offsets from
    multi-polygons to coordinates are the offsets from polygons to
    coordinates read at the offsets from multi-polygons to polygons. *)
Theorem multiPolygon_offsets_through_polygon_offsets data polygonData ringData :
  JS.get (arrow.children data) 0 = Some polygonData ->
  JS.get (arrow.children polygonData) 0 = Some ringData ->
  indexes_into (arrow.valueOffsets data) (arrow.valueOffsets polygonData) ->
  indexes_into (arrow.valueOffsets polygonData) (arrow.valueOffsets ringData) ->
  Int32Array_ok (arrow.valueOffsets ringData) ->
  exists resolvedPolygonToCoordOffsets resolvedMultiPolygonToCoordOffsets,
    getPolygonResolvedOffsets polygonData = Normal resolvedPolygonToCoordOffsets /\
    getMultiPolygonResolvedOffsets data = Normal resolvedMultiPolygonToCoordOffsets /\
    forall i, 0 <= i < JS.len (arrow.valueOffsets data) ->
      exists a v,
        JS.get (arrow.valueOffsets data) i = Some a /\
        JS.get resolvedPolygonToCoordOffsets a = Some v /\
        JS.get resolvedMultiPolygonToCoordOffsets i = Some v.
Proof.
  intros Hc1 Hc2 Hchain1 Hchain2 Hint.
  destruct (resolved_two_levels polygonData ringData Hc2 Hchain2 Hint)
    as (Rp & Hrunp & _ & Hlenp & Hgetp).
  destruct (resolved_three_levels data polygonData ringData Hc1 Hc2 Hchain1 Hchain2 Hint)
    as (Rm & Hrunm & Hlenm & Hgetm).
  exists Rp, Rm. split; [assumption|]. split; [assumption|].
  intros i Hi. destruct (Hgetm i Hi) as (a & b & v & Ha & Hb & Hv & HRm).
  destruct (Hgetp a (get_Some_range _ _ _ Hb)) as (b' & v' & Hb' & Hv' & HRp).
  exists a, v. split; [assumption|]. split; [|assumption].
  congruence.
Qed.

End ResolverOutcomes.

Lemma multiPolygon_offsets_through_polygon_offsets_witness :
  exists Rp Rm,
    getPolygonResolvedOffsets Sample.polygonData = Normal Rp /\
    getMultiPolygonResolvedOffsets Sample.multiPolygonData = Normal Rm /\
    JS.get Rp 2 = JS.get Rm 1.
Proof.
  destruct (multiPolygon_offsets_through_polygon_offsets
              Sample.multiPolygonData Sample.polygonData Sample.ringData)
    as (Rp & Rm & Hp & Hm & Hagree).
  - reflexivity.
  - reflexivity.
  - repeat constructor; vm_compute; congruence.
  - repeat constructor; vm_compute; congruence.
  - repeat constructor; vm_compute; congruence.
  - exists Rp, Rm. split; [exact Hp|]. split; [exact Hm|].
    destruct (Hagree 1) as (a & v & Ha & HRp & HRm); [vm_compute; split; congruence|].
    vm_compute in Ha. injection Ha as <-. congruence.
Defined.

(** ** The dispatcher: what it leaves alone, how it fails, and the layers' use *)


Section DispatcherUse.
Context {A V : Type} (zero : A) (su : TypedArrayKind -> A).
Implicit Types (props : @LayerProps A V) (columnData child : arrow.Data A).
Implicit Types (polygonData ringData : arrow.Data A).



(** X17: The polygon layer's colours ([_renderLayersPolygon], [getFillColor]
    and [getLineColor]): with the offsets that [getPolygonResolvedOffsets]
    returns for the chunk, a colour column holding one colour of
    [listSize] channels for each polygon is assigned as an attribute
    holding, at every coordinate of every ring of polygon [g], the colour
    of polygon [g]. *)
Theorem polygon_layer_color_per_coordinate props propName data chunkIdx
  columnData listSize childType child polygonData ringData :
  JS.get (arrow.children polygonData) 0 = Some ringData ->
  indexes_into (arrow.valueOffsets polygonData) (arrow.valueOffsets ringData) ->
  Int32Array_ok (arrow.valueOffsets ringData) ->
  well_formed (arrow.valueOffsets polygonData) ->
  well_formed (arrow.valueOffsets ringData) ->
  JS.get data chunkIdx = Some columnData ->
  arrow.type columnData = arrow.FixedSizeList listSize childType ->
  arrow.children columnData = [child] ->
  1 <= listSize ->
  JS.len (elems (arrow.values child))
  = listSize * (JS.len (arrow.valueOffsets polygonData) - 1) ->
  exists resolvedRingOffsets props' expanded,
    getPolygonResolvedOffsets polygonData = Normal resolvedRingOffsets /\
    assignAccessor zero su props propName (Vector data) chunkIdx
      (Some resolvedRingOffsets) = Normal props' /\
    attributes props' !! propName = Some (mkAttribute expanded listSize (Some true)) /\
    ctor expanded = ctor (arrow.values child) /\
    forall g a b lo hi c i,
      JS.get (arrow.valueOffsets polygonData) g = Some a ->
      JS.get (arrow.valueOffsets polygonData) (g + 1) = Some b ->
      JS.get (arrow.valueOffsets ringData) a = Some lo ->
      JS.get (arrow.valueOffsets ringData) b = Some hi ->
      lo <= c < hi -> 0 <= i < listSize ->
      exists v,
        JS.get (elems (arrow.values child)) (g * listSize + i) = Some v /\
        JS.get (elems expanded) (c * listSize + i) = Some v.
Proof.
  intros Hc Hchain Hint H1 H2 Hchunk Htype Hchildren Hsize Hlen.
  destruct (two_levels_well_formed polygonData ringData Hc Hchain Hint H1 H2)
    as (R & HR & HRwf & HRlen & HRget).
  destruct (well_formed_last R HRwf) as (last & Hlast & Hpos).
  destruct (expandArrayToCoords_run zero su (arrow.values child) listSize R last
              Hsize HRwf Hlast) as (final & Hrun & Hfinlen & Hfill).
  exists R. eexists. exists (mkTypedArray (ctor (arrow.values child)) final).
  split; [exact HR|]. unfold assignAccessor. rewrite Hchunk, Htype.
  unfold child0. rewrite Hchildren. rewrite bool_decide_eq_true_2 by reflexivity.
  change (JS.get [child] 0) with (Some child).
  cbn [assert mbind JS.Completion_bind mret JS.Completion_ret expand_if_offsets].
  rewrite Hrun. cbn [mbind JS.Completion_bind mret JS.Completion_ret].
  split; [reflexivity|]. cbn [attributes]. split; [apply lookup_insert_eq|].
  split; [reflexivity|]. cbn [elems].
  intros g a b lo hi c i Ha Hb Hlo Hhi Hin Hi.
  pose proof (get_Some_range _ _ _ Ha) as Hg. pose proof (get_Some_range _ _ _ Hb) as Hg'.
  destruct (HRget g Hg) as (a' & lo' & Ha' & Hlo' & HRg).
  destruct (HRget (g + 1) Hg') as (b' & hi' & Hb' & Hhi' & HRg').
  assert (a' = a) by congruence. assert (b' = b) by congruence. subst a' b'.
  assert (lo' = lo) by congruence. assert (hi' = hi) by congruence. subst lo' hi'.
  destruct (get_in_range (elems (arrow.values child)) (g * listSize + i)) as [v Hv];
    [nia|].
  exists v. split; [assumption|].
  rewrite (Hfill g lo hi c i HRg HRg' Hin Hi). unfold read_for_store. now rewrite Hv.
Qed.

(** X18: The multi-polygon layer's elevations ([_renderLayersMultiPolygon],
    [getElevation]): with the offsets that
    [getMultiPolygonResolvedOffsets] returns for the chunk, a column of
    one float for each multi-polygon is assigned as an attribute holding,
    at every coordinate of every ring of every polygon of multi-polygon
    [g], the value of multi-polygon [g]. *)
Theorem multiPolygon_layer_float_per_coordinate props propName data chunkIdx
  columnData multiPolygonData polygonData ringData :
  JS.get (arrow.children multiPolygonData) 0 = Some polygonData ->
  JS.get (arrow.children polygonData) 0 = Some ringData ->
  indexes_into (arrow.valueOffsets multiPolygonData) (arrow.valueOffsets polygonData) ->
  indexes_into (arrow.valueOffsets polygonData) (arrow.valueOffsets ringData) ->
  Int32Array_ok (arrow.valueOffsets ringData) ->
  well_formed (arrow.valueOffsets multiPolygonData) ->
  well_formed (arrow.valueOffsets polygonData) ->
  well_formed (arrow.valueOffsets ringData) ->
  JS.get data chunkIdx = Some columnData ->
  arrow.type columnData = arrow.Float ->
  JS.len (elems (arrow.values columnData))
  = JS.len (arrow.valueOffsets multiPolygonData) - 1 ->
  exists resolvedMultiPolygonToCoordOffsets props' expanded,
    getMultiPolygonResolvedOffsets multiPolygonData
    = Normal resolvedMultiPolygonToCoordOffsets /\
    assignAccessor zero su props propName (Vector data) chunkIdx
      (Some resolvedMultiPolygonToCoordOffsets) = Normal props' /\
    attributes props' !! propName = Some (mkAttribute expanded 1 None) /\
    ctor expanded = ctor (arrow.values columnData) /\
    forall g a b a' b' lo hi c,
      JS.get (arrow.valueOffsets multiPolygonData) g = Some a ->
      JS.get (arrow.valueOffsets multiPolygonData) (g + 1) = Some b ->
      JS.get (arrow.valueOffsets polygonData) a = Some a' ->
      JS.get (arrow.valueOffsets polygonData) b = Some b' ->
      JS.get (arrow.valueOffsets ringData) a' = Some lo ->
      JS.get (arrow.valueOffsets ringData) b' = Some hi ->
      lo <= c < hi ->
      exists v,
        JS.get (elems (arrow.values columnData)) g = Some v /\
        JS.get (elems expanded) c = Some v.
Proof.
  intros Hc1 Hc2 Hchain1 Hchain2 Hint H1 H2 H3 Hchunk Htype Hlen.
  destruct (three_levels_well_formed multiPolygonData polygonData ringData
              Hc1 Hc2 Hchain1 Hchain2 Hint H1 H2 H3)
    as (R & HR & HRwf & HRlen & HRget).
  destruct (well_formed_last R HRwf) as (last & Hlast & Hpos).
  destruct (expandArrayToCoords_run zero su (arrow.values columnData) 1 R last
              ltac:(lia) HRwf Hlast) as (final & Hrun & Hfinlen & Hfill).
  exists R. eexists. exists (mkTypedArray (ctor (arrow.values columnData)) final).
  split; [exact HR|]. unfold assignAccessor. rewrite Hchunk, Htype.
  cbn [expand_if_offsets]. rewrite Hrun.
  cbn [mbind JS.Completion_bind mret JS.Completion_ret].
  split; [reflexivity|]. cbn [attributes]. split; [apply lookup_insert_eq|].
  split; [reflexivity|]. cbn [elems].
  intros g a b a' b' lo hi c Ha Hb Ha' Hb' Hlo Hhi Hin.
  pose proof (get_Some_range _ _ _ Ha) as Hg. pose proof (get_Some_range _ _ _ Hb) as Hg'.
  destruct (HRget g Hg) as (x & x' & u & Hx & Hx' & Hu & HRg).
  destruct (HRget (g + 1) Hg') as (y & y' & w & Hy & Hy' & Hw & HRg').
  assert (x = a) by congruence. assert (y = b) by congruence. subst x y.
  assert (x' = a') by congruence. assert (y' = b') by congruence. subst x' y'.
  assert (u = lo) by congruence. assert (w = hi) by congruence. subst u w.
  destruct (get_in_range (elems (arrow.values columnData)) g) as [v Hv]; [lia|].
  exists v. split; [assumption|].
  pose proof (Hfill g lo hi c 0 HRg HRg' Hin ltac:(lia)) as Hq.
  replace (c * 1 + 0) with c in Hq by lia. replace (g * 1 + 0) with g in Hq by lia.
  rewrite Hq. unfold read_for_store. now rewrite Hv.
Qed.

End DispatcherUse.



Lemma polygon_layer_color_per_coordinate_witness :
  exists resolvedRingOffsets props' expanded,
    getPolygonResolvedOffsets Sample.polygonData = Normal resolvedRingOffsets /\
    assignAccessor 0 (fun _ => 0) Sample.props0 "getFillColor"
      (Vector [Sample.colorData]) 0 (Some resolvedRingOffsets) = Normal props' /\
    attributes props' !! "getFillColor"%string
    = Some (mkAttribute expanded 4 (Some true)) /\
    JS.get (elems expanded) (5 * 4 + 1) = Some 255.
Proof.
  destruct (polygon_layer_color_per_coordinate 0 (fun _ => 0) Sample.props0
              "getFillColor" [Sample.colorData] 0 Sample.colorData 4
              (arrow.Int false 8)
              (arrow.mkData (arrow.Int false 8) 8 []
                 (mkTypedArray Uint8Array [255; 0; 0; 255; 0; 255; 0; 255]) [])
              Sample.polygonData Sample.ringData)
    as (R & props' & expanded & HR & Hassign & Hattr & _ & Hfill).
  - reflexivity.
  - repeat constructor; vm_compute; congruence.
  - repeat constructor; vm_compute; congruence.
  - split; [reflexivity|]. simpl. lia.
  - split; [reflexivity|]. simpl. lia.
  - reflexivity.
  - reflexivity.
  - reflexivity.
  - lia.
  - reflexivity.
  - exists R, props', expanded. repeat (split; [assumption|]).
    destruct (Hfill 1 2 3 4 7 5 1 eq_refl eq_refl eq_refl eq_refl ltac:(lia) ltac:(lia))
      as (v & Hv & Hc).
    vm_compute in Hv. injection Hv as <-. exact Hc.
Defined.

Lemma multiPolygon_layer_float_per_coordinate_witness :
  exists resolved props' expanded,
    getMultiPolygonResolvedOffsets Sample.multiPolygonData = Normal resolved /\
    assignAccessor 0 (fun _ => 0) Sample.props0 "getElevation"
      (Vector [arrow.mkData arrow.Float 1 [] (mkTypedArray Float32Array [10]) []]) 0
      (Some resolved) = Normal props' /\
    attributes props' !! "getElevation"%string = Some (mkAttribute expanded 1 None) /\
    JS.get (elems expanded) 6 = Some 10.
Proof.
  destruct (multiPolygon_layer_float_per_coordinate 0 (fun _ => 0) Sample.props0
              "getElevation"
              [arrow.mkData arrow.Float 1 [] (mkTypedArray Float32Array [10]) []] 0
              (arrow.mkData arrow.Float 1 [] (mkTypedArray Float32Array [10]) [])
              Sample.multiPolygonData Sample.polygonData Sample.ringData)
    as (R & props' & expanded & HR & Hassign & Hattr & _ & Hfill).
  - reflexivity.
  - reflexivity.
  - repeat constructor; vm_compute; congruence.
  - repeat constructor; vm_compute; congruence.
  - repeat constructor; vm_compute; congruence.
  - split; [reflexivity|]. simpl. lia.
  - split; [reflexivity|]. simpl. lia.
  - split; [reflexivity|]. simpl. lia.
  - reflexivity.
  - reflexivity.
  - reflexivity.
  - exists R, props', expanded. repeat (split; [assumption|]).
    destruct (Hfill 0 0 2 0 3 0 7 6 eq_refl eq_refl eq_refl eq_refl eq_refl eq_refl
                ltac:(lia)) as (v & Hv & Hc).
    vm_compute in Hv. injection Hv as <-. exact Hc.
Defined.

(** ** Picking: the row behind the global index, stale picks, and the
       multi-polygon layer's use of the inverted offsets *)

Section PickingUse.
Context {Row Info : Type}.
Implicit Types (table : @Table Row) (info : @PickingInfo Row Info).

Lemma rows_before_sum (bs : list (@RecordBatch Row)) :
  Z.of_nat (sum_list (length <$> (rows <$> bs)))
  = foldr Z.add 0 ((fun b => JS.len (rows b)) <$> bs).
Proof.
  induction bs as [|b bs IH]; [reflexivity|].
  cbn [fmap list_fmap sum_list sum_list_with foldr]. rewrite <- IH.
  unfold JS.len, id. lia.
Qed.

(** The row at position [rows_before + i] of the rows of all batches put
    end to end is row [i] of the batch. *)
Lemma all_rows_lookup table k batch i row :
  JS.get (batches table) k = Some batch -> JS.get (rows batch) i = Some row ->
  JS.get (mjoin (rows <$> batches table)) (i + rows_before table k) = Some row.
Proof.
  intros Hbatch Hrow.
  pose proof (get_Some_range _ _ _ Hbatch) as Hk.
  pose proof (get_Some_range _ _ _ Hrow) as Hi.
  unfold JS.get in Hbatch, Hrow. repeat case_decide; try lia.
  assert (Hsum : rows_before table k
                 = Z.of_nat (sum_list (length <$> take (Z.to_nat k)
                                                    (rows <$> batches table)))).
  { unfold rows_before. rewrite <- fmap_take. now rewrite rows_before_sum. }
  assert (0 <= rows_before table k) by lia.
  unfold JS.get. case_decide; [|lia].
  apply join_lookup_Some.
  exists (Z.to_nat k), (rows batch), (Z.to_nat i). split; [|split].
  - rewrite list_lookup_fmap, Hbatch. reflexivity.
  - exact Hrow.
  - lia.
Qed.

(** X19: The index that [getPickingInfo] returns is the position, among the
    rows of all batches put end to end, of the very row it returns as
    [object]: for a picked row of the batch, both layers return the row
    and an index at which the whole table holds that row. *)
Theorem getPickingInfo_index_locates_object table info sourceLayer batch i row :
  Table_ok table ->
  JS.get (batches table) (recordBatchIdx sourceLayer) = Some batch ->
  invertedGeomOffsets sourceLayer = None ->
  index info = Some i ->
  JS.get (rows batch) i = Some row ->
  exists picked global,
    SolidPolygon_getPickingInfo table info sourceLayer = Normal picked /\
    Arc_getPickingInfo table info sourceLayer = Normal picked /\
    index picked = Some global /\
    object picked = Some row /\
    JS.get (mjoin (rows <$> batches table)) global = Some row.
Proof.
  intros Hok Hbatch Hinv Hidx Hrow.
  pose proof (get_Some_range _ _ _ Hbatch) as Hr.
  pose proof (Table_ok_offset table (recordBatchIdx sourceLayer) Hok ltac:(lia)) as Hoff.
  unfold SolidPolygon_getPickingInfo, Arc_getPickingInfo.
  rewrite Hbatch, Hoff, Hidx, Hinv. cbn [mbind option_bind js_add]. rewrite Hrow.
  eexists. exists (i + rows_before table (recordBatchIdx sourceLayer)).
  split; [reflexivity|]. split; [reflexivity|]. cbn [index object].
  split; [reflexivity|]. split; [reflexivity|].
  exact (all_rows_lookup table _ batch i row Hbatch Hrow).
Qed.


(** X21: The multi-polygon layer's picking ([_renderLayersMultiPolygon] sets
    [invertedGeomOffsets] to [invertOffsets(geomOffsets)]): picking the
    rendered polygon [p] returns the multi-polygon [g] whose range of
    polygons holds [p], as the row [g] of the batch and as the index [g]
    plus the rows of the batches before. *)
Theorem multiPolygon_picking_returns_feature table info sourceLayer batch
  (geomOffsets : list Z) p g lo hi :
  Table_ok table ->
  JS.get (batches table) (recordBatchIdx sourceLayer) = Some batch ->
  well_formed geomOffsets -> JS.len geomOffsets <= 2 ^ 32 ->
  index info = Some p ->
  JS.get geomOffsets g = Some lo -> JS.get geomOffsets (g + 1) = Some hi ->
  lo <= p < hi ->
  exists inverted,
    invertOffsets geomOffsets = Normal inverted /\
    (invertedGeomOffsets sourceLayer = Some inverted ->
     SolidPolygon_getPickingInfo table info sourceLayer
     = Normal (mkPickingInfo
                 (Some (g + rows_before table (recordBatchIdx sourceLayer)))
                 (JS.get (rows batch) g) (rest info))).
Proof.
  intros Hok Hbatch HO Hlen Hidx Hlo Hhi Hp.
  destruct (well_formed_last geomOffsets HO) as (last & Hlast & Hpos).
  destruct (invertOffsets_run geomOffsets last HO Hlast)
    as (inv & Hinv & Hinvlen & Hinvfill).
  eexists. split; [exact Hinv|]. intros Hsl.
  pose proof (get_Some_range _ _ _ Hbatch) as Hr.
  pose proof (get_Some_range _ _ _ Hlo). pose proof (get_Some_range _ _ _ Hhi).
  pose proof (Table_ok_offset table (recordBatchIdx sourceLayer) Hok ltac:(lia)) as Hoff.
  unfold SolidPolygon_getPickingInfo. rewrite Hsl, Hidx, Hbatch, Hoff.
  cbn [mbind option_bind elems]. rewrite (Hinvfill g lo hi p Hlo Hhi Hp).
  rewrite invertOffsets_index_fits by lia. reflexivity.
Qed.

End PickingUse.

Lemma getPickingInfo_index_locates_object_witness :
  exists picked,
    Arc_getPickingInfo Sample.table (mkPickingInfo (Some 2) None tt)
      (mkSourceLayerProps 1 None) = Normal picked /\
    index picked = Some 4 /\
    JS.get (mjoin (rows <$> batches Sample.table)) 4 = Some 202.
Proof.
  destruct (getPickingInfo_index_locates_object Sample.table
              (mkPickingInfo (Some 2) None tt) (mkSourceLayerProps 1 None)
              (mkRecordBatch [200; 201; 202]) 2 202
              eq_refl eq_refl eq_refl eq_refl eq_refl)
    as (picked & global & _ & Harc & Hidx & _ & Hrow).
  exists picked. split; [exact Harc|].
  assert (global = 4).
  { vm_compute in Harc. injection Harc as <-. cbn [index] in Hidx. congruence. }
  subst global. split; [exact Hidx|exact Hrow].
Defined.


Lemma multiPolygon_picking_returns_feature_witness :
  exists inverted,
    invertOffsets [0; 2; 5] = Normal inverted /\
    SolidPolygon_getPickingInfo Sample.table (mkPickingInfo (Some 3) None tt)
      (mkSourceLayerProps 1 (Some inverted))
    = Normal (mkPickingInfo (Some 3) (Some 201) tt).
Proof.
  eexists. split; [reflexivity|].
  destruct (multiPolygon_picking_returns_feature Sample.table
              (mkPickingInfo (Some 3) None tt)
              (mkSourceLayerProps 1 (Some (mkTypedArray Uint8Array [0; 0; 1; 1; 1])))
              (mkRecordBatch [200; 201; 202]) [0; 2; 5] 3 1 2 5)
    as (inverted & Hinv & Hpick).
  - reflexivity.
  - reflexivity.
  - split; [reflexivity|]. simpl. lia.
  - vm_compute. discriminate.
  - reflexivity.
  - reflexivity.
  - reflexivity.
  - lia.
  - vm_compute in Hinv. injection Hinv as <-. exact (Hpick eq_refl).
Defined.

(** ** The bytes that the picking-colour encoder writes *)

Lemma for_loop_ext {S} lo hi (b1 b2 : Z -> S -> S) s :
  (forall k t, b1 k t = b2 k t) -> JS.for_loop lo hi b1 s = JS.for_loop lo hi b2 s.
Proof.
  intros Hb. unfold JS.for_loop. generalize (Z.to_nat (hi - lo)) as n.
  intros n. revert lo s. induction n as [|n IH]; intros lo s; [reflexivity|].
  cbn [JS.for_range]. rewrite Hb. apply IH.
Qed.

Section PickingColours.
Context (enc : Z -> list Z -> list Z) (color : Z -> Z -> Z).
Hypothesis enc_color :
  forall id target k, 0 <= k < 3 -> JS.get (enc id target) k = Some (color id k).

(** The three stores of one coordinate, with the colour of feature [g]. *)
Lemma write_color_enc g target c (s : list Z) :
  write_color (enc g target) c s
  = JS.set (JS.set (JS.set s (c * 3) (clamp_uint8 (color g 0)))
              (c * 3 + 1) (clamp_uint8 (color g 1)))
      (c * 3 + 2) (clamp_uint8 (color g 2)).
Proof.
  unfold write_color. rewrite !enc_color by lia. reflexivity.
Qed.

Lemma encodePickingColors_step_snd R g (st : list Z * list Z) :
  snd (encodePickingColors_step R enc g st)
  = match JS.get R g, JS.get R (g + 1) with
    | Some lo, Some hi =>
        JS.for_loop lo hi
          (fun c s =>
             JS.set (JS.set (JS.set s (c * 3) (clamp_uint8 (color g 0)))
                       (c * 3 + 1) (clamp_uint8 (color g 1)))
               (c * 3 + 2) (clamp_uint8 (color g 2)))
          (snd st)
    | _, _ => snd st
    end.
Proof.
  destruct st as [col buf]. unfold encodePickingColors_step.
  destruct (JS.get R g) as [lo|]; [|reflexivity].
  destruct (JS.get R (g + 1)) as [hi|]; [|reflexivity]. cbn [snd].
  apply for_loop_ext. intros c s. apply write_color_enc.
Qed.

(** X22: Every byte that the buffer has is right: for a callback that leaves
    the colour of feature [id] in the first three entries of its result,
    byte [k] of coordinate [c] of feature [f], where the buffer is long
    enough to have it, is channel [k] of the colour of [f], clamped to the
    range of a byte. *)
Theorem encodePickingColors_written_bytes (R : list Z) :
  well_formed R ->
  exists out last,
    JS.get R (JS.len R - 1) = Some last /\
    encodePickingColors R enc = Normal out /\
    JS.len (elems out) = last /\
    forall f lo hi c k,
      JS.get R f = Some lo -> JS.get R (f + 1) = Some hi -> lo <= c < hi ->
      0 <= k < 3 -> c * 3 + k < last ->
      JS.get (elems out) (c * 3 + k) = Some (clamp_uint8 (color f k)).
Proof.
  intros HR. destruct (well_formed_last R HR) as (last & Hlast & Hpos).
  pose proof (get_Some_range _ _ _ Hlast) as Hn.
  unfold encodePickingColors. rewrite Hlast. unfold new_TypedArray.
  case_decide; [lia|]. cbn [mbind JS.Completion_bind mret JS.Completion_ret elems].
  eexists. exists last. split; [reflexivity|]. split; [reflexivity|]. cbn [elems].
  set (w := fun g c (s : list Z) =>
              JS.set (JS.set (JS.set s (c * 3) (clamp_uint8 (color g 0)))
                        (c * 3 + 1) (clamp_uint8 (color g 1)))
                (c * 3 + 2) (clamp_uint8 (color g 2))).
  set (step' := fun g (s : list Z) =>
                  match JS.get R g, JS.get R (g + 1) with
                  | Some lo, Some hi => JS.for_loop lo hi (w g) s
                  | _, _ => s
                  end).
  set (buf0 := replicate (Z.to_nat last) 0).
  assert (Hsnd : snd (JS.for_loop 0 (JS.len R - 1) (encodePickingColors_step R enc)
                        ([], buf0))
                 = JS.for_loop 0 (JS.len R - 1) step' buf0).
  { apply (for_loop_ind
             (fun n (st : list Z * list Z) => snd st = JS.for_loop 0 n step' buf0));
      [lia| |].
    - now rewrite for_loop_empty by lia.
    - intros n st Hk Hst. rewrite for_loop_last by lia.
      rewrite encodePickingColors_step_snd, Hst. reflexivity. }
  rewrite Hsnd.
  enough (G : JS.len (JS.for_loop 0 (JS.len R - 1) step' buf0) = last /\
              forall f lo hi c,
                JS.get R f = Some lo -> JS.get R (f + 1) = Some hi -> lo <= c < hi ->
                forall k, 0 <= k < 3 -> c * 3 + k < last ->
                  JS.get (JS.for_loop 0 (JS.len R - 1) step' buf0) (c * 3 + k)
                  = Some (clamp_uint8 (color f k))).
  { destruct G as [G1 G2]. split; [exact G1|]. intros f lo hi c k Hlo Hhi Hc Hk Hin.
    exact (G2 f lo hi c Hlo Hhi Hc k Hk Hin). }
  apply (offsets_fill w
           (fun s => JS.len s = last)
           (fun c => 0 <= c)
           (fun g c s => forall k, 0 <= k < 3 -> c * 3 + k < last ->
              JS.get s (c * 3 + k) = Some (clamp_uint8 (color g k)))).
  - intros g c s Hs. unfold w. now rewrite !len_set.
  - intros g c s Hs Hc k Hk Hin. unfold w.
    assert (k = 0 \/ k = 1 \/ k = 2) as [-> | [-> | ->]] by lia.
    + rewrite !get_set_ne by lia. rewrite Z.add_0_r. apply get_set_eq. lia.
    + rewrite get_set_ne by lia. apply get_set_eq. rewrite len_set. lia.
    + apply get_set_eq. rewrite !len_set. lia.
  - intros g c g' c' s Hne HQ k Hk Hin. unfold w.
    rewrite !get_set_ne by lia. now apply HQ.
  - reflexivity.
  - apply HR.
  - intros g lo hi c Hlo Hhi Hc.
    pose proof (well_formed_range R g lo hi c last HR Hlast Hlo Hhi Hc). lia.
  - unfold buf0. now apply len_replicate.
Qed.

End PickingColours.

Lemma encodePickingColors_written_bytes_witness :
  exists out,
    encodePickingColors [0; 2; 5] deck_encodePickingColor = Normal out /\
    JS.len (elems out) = 5 /\
    JS.get (elems out) 3 = Some 1.
Proof.
  assert (Hcb : forall id target k, 0 <= k < 3 ->
            JS.get (deck_encodePickingColor id target) k
            = Some (if decide (k = 0) then Z.land (id + 1) 255
                    else if decide (k = 1) then Z.land (Z.shiftr (id + 1) 8) 255
                    else Z.land (Z.shiftr (Z.shiftr (id + 1) 8) 8) 255)).
  { intros id target k Hk. unfold deck_encodePickingColor.
    assert (k = 0 \/ k = 1 \/ k = 2) as [-> | [-> | ->]] by lia; reflexivity. }
  assert (Hwf : well_formed [0; 2; 5]).
  { split; [reflexivity|]. simpl. lia. }
  destruct (encodePickingColors_written_bytes deck_encodePickingColor _ Hcb [0; 2; 5] Hwf)
    as (out & last & Hlast & Hrun & Hlen & Hbytes).
  assert (last = 5) as -> by (vm_compute in Hlast; congruence).
  exists out. split; [exact Hrun|]. split; [exact Hlen|].
  exact (Hbytes 0 0 2 1 0 eq_refl eq_refl ltac:(lia) ltac:(lia) ltac:(lia)).
Defined.
